(** * Shallow embedding of [src/ideal_player.py] (class [MemoryGameSimulator])

    Python ints are [Z]; positions [(row, col)] only ever come from
    [range(rows)] x [range(cols)], so they are pairs of [nat].  The dict
    [self.revealed] is an association list kept in insertion order (a Python
    dict iterates in insertion order and assigning to an existing key keeps
    its place); the set [self.matched] is a duplicate-free list.  A raised
    exception ([IndexError]) is [None]. *)

From Stdlib Require Import List ZArith Lia Bool Arith Permutation QArith.
Import ListNotations.
Open Scope Z_scope.

(** ** Data *)

Definition pos : Type := (nat * nat)%type.

Definition pos_eqb (p q : pos) : bool :=
  Nat.eqb (fst p) (fst q) && Nat.eqb (snd p) (snd q).

(** [pos in xs] for a list or a set. *)
Definition mem (p : pos) (xs : list pos) : bool := existsb (pos_eqb p) xs.

(** [set.add]. *)
Definition set_add (p : pos) (m : list pos) : list pos :=
  if mem p m then m else p :: m.

(** The dict [{position: symbol}]: lookup and assignment. *)
Fixpoint rv_lookup (m : list (pos * Z)) (p : pos) : option Z :=
  match m with
  | [] => None
  | (q, w) :: t => if pos_eqb p q then Some w else rv_lookup t p
  end.

Fixpoint rv_set (m : list (pos * Z)) (p : pos) (v : Z) : list (pos * Z) :=
  match m with
  | [] => [(p, v)]
  | (q, w) :: t => if pos_eqb p q then (q, v) :: t else (q, w) :: rv_set t p v
  end.

(** [pos in self.revealed]. *)
Definition is_rev (m : list (pos * Z)) (p : pos) : bool :=
  match rv_lookup m p with Some _ => true | None => false end.

Record sim := mkSim {
  rows : Z;
  cols : Z;
  total_cards : Z;
  total_pairs : Z;
  board : list (list Z);
  revealed : list (pos * Z);
  matched : list pos;
  moves : Z;
  perfect_matches : Z;
  exploratory_moves : Z
}.

(** [MemoryGameSimulator.__init__] ([verbose] only drives printing). *)
Definition new_sim (r c : Z) : sim :=
  mkSim r c (r * c) ((r * c) / 2) [] [] [] 0 0 0.

(** [list(range(n))]. *)
Definition zrange (n : Z) : list Z := map Z.of_nat (seq 0 (Z.to_nat n)).

(** ** [setup_board] *)

(** [symbols + symbols], the list handed to [random.shuffle]. *)
Definition pairs_of (s : sim) : list Z :=
  let symbols := zrange (total_pairs s) in symbols ++ symbols.

(** The inner loop [for j in range(cols): row.append(pairs[idx]); idx += 1]. *)
Fixpoint build_row (pairs : list Z) (idx : nat) (n : nat) : option (list Z) :=
  match n with
  | O => Some []
  | S n' =>
      match nth_error pairs idx with
      | None => None
      | Some v =>
          match build_row pairs (S idx) n' with
          | None => None
          | Some row => Some (v :: row)
          end
      end
  end.

(** The outer loop [for i in range(rows)], [idx] carried across rows. *)
Fixpoint build_board (pairs : list Z) (idx : nat) (nrows ncols : nat)
  : option (list (list Z)) :=
  match nrows with
  | O => Some []
  | S r =>
      match build_row pairs idx ncols with
      | None => None
      | Some row =>
          match build_board pairs (idx + ncols) r ncols with
          | None => None
          | Some rest => Some (row :: rest)
          end
      end
  end.

Definition with_board (s : sim) (b : list (list Z)) : sim :=
  mkSim (rows s) (cols s) (total_cards s) (total_pairs s) b
    (revealed s) (matched s) (moves s) (perfect_matches s) (exploratory_moves s).

(** [setup_board] once [random.shuffle] has produced [shuffled]. *)
Definition setup_board_with (shuffled : list Z) (s : sim) : option sim :=
  match build_board shuffled 0 (Z.to_nat (rows s)) (Z.to_nat (cols s)) with
  | None => None
  | Some b => Some (with_board s b)
  end.

(** [setup_board]; [shuffle] stands for the in-place [random.shuffle]. *)
Definition setup_board (shuffle : list Z -> list Z) (s : sim) : option sim :=
  setup_board_with (shuffle (pairs_of s)) s.

(** ** Queries *)

(** [get_symbol]: [self.board[row][col]]. *)
Definition get_symbol (b : list (list Z)) (p : pos) : option Z :=
  match nth_error b (fst p) with
  | None => None
  | Some row => nth_error row (snd p)
  end.

Definition find_known_match (s : sim) (symbol : Z) : option pos :=
  hd_error (map fst (filter (fun '(p, sym) => Z.eqb sym symbol && negb (mem p (matched s)))
                       (revealed s))).

(** All cells in row-major order. *)
Definition all_positions (r c : nat) : list pos :=
  flat_map (fun i => map (fun j => (i, j)) (seq 0 c)) (seq 0 r).

Definition all_pos (s : sim) : list pos :=
  all_positions (Z.to_nat (rows s)) (Z.to_nat (cols s)).

Definition get_unmatched_positions (s : sim) : list pos :=
  filter (fun p => negb (mem p (matched s))) (all_pos s).

(** ** [make_move] *)

Definition make_move (s : sim) (pos1 pos2 : pos) (is_known_match : bool) : option sim :=
  match get_symbol (board s) pos1, get_symbol (board s) pos2 with
  | Some symbol1, Some symbol2 =>
      let rv := rv_set (rv_set (revealed s) pos1 symbol1) pos2 symbol2 in
      if Z.eqb symbol1 symbol2 then
        Some (mkSim (rows s) (cols s) (total_cards s) (total_pairs s) (board s) rv
                (set_add pos2 (set_add pos1 (matched s)))
                (moves s)
                (if is_known_match then perfect_matches s + 1 else perfect_matches s)
                (exploratory_moves s))
      else
        Some (mkSim (rows s) (cols s) (total_cards s) (total_pairs s) (board s) rv
                (matched s) (moves s + 1) (perfect_matches s) (exploratory_moves s + 1))
  | _, _ => None
  end.

(** ** [play_turn] *)

(** The loop [for pos in unmatched: ...] looking for a known pair.  A
    non-empty tuple is truthy, so [match_pos and ...] only tests [not None]. *)
Fixpoint known_loop (s : sim) (unmatched : list pos) : option (pos * pos) :=
  match unmatched with
  | [] => None
  | p :: t =>
      match rv_lookup (revealed s) p with
      | None => known_loop s t
      | Some symbol =>
          match find_known_match s symbol with
          | Some match_pos =>
              if negb (pos_eqb match_pos p) then Some (p, match_pos) else known_loop s t
          | None => known_loop s t
          end
      end
  end.

Definition unrevealed_of (s : sim) (unmatched : list pos) : list pos :=
  filter (fun p => negb (is_rev (revealed s) p)) unmatched.

Definition with_flag (b : bool) (o : option sim) : option (bool * sim) :=
  match o with None => None | Some s' => Some (b, s') end.

Definition play_turn (s : sim) : option (bool * sim) :=
  if Z.eqb (Z.of_nat (length (matched s))) (total_cards s) then Some (false, s) else
  let unmatched := get_unmatched_positions s in
  match known_loop s unmatched with
  | Some (p, match_pos) => with_flag true (make_move s p match_pos true)
  | None =>
      match unrevealed_of s unmatched with
      | pos1 :: pos2 :: _ => with_flag true (make_move s pos1 pos2 false)
      | [pos1] =>
          match filter (fun p => is_rev (revealed s) p) unmatched with
          | pos2 :: _ => with_flag true (make_move s pos1 pos2 false)
          | [] => None
          end
      | [] => Some (false, s)
      end
  end.

(** ** [play_game] *)

(** [while self.play_turn(): turn_count += 1; if turn_count > 1000: break].
    Every iteration that does not stop increments [turn_count], so from
    [turn_count = 0] the fuel 1001 is never exhausted before the [break]. *)
Fixpoint game_loop (fuel : nat) (turn_count : Z) (s : sim) : option sim :=
  match fuel with
  | O => Some s
  | S f =>
      match play_turn s with
      | None => None
      | Some (false, s') => Some s'
      | Some (true, s') =>
          let tc := turn_count + 1 in
          if Z.gtb tc 1000 then Some s' else game_loop f tc s'
      end
  end.

Definition play_game (shuffle : list Z -> list Z) (s : sim) : option sim :=
  match setup_board shuffle s with
  | None => None
  | Some s1 => game_loop 1001 0 s1
  end.

(** The value returned by [play_game]: [self.moves]. *)
Definition play_game_result (shuffle : list Z -> list Z) (s : sim) : option Z :=
  match play_game shuffle s with None => None | Some s' => Some (moves s') end.

(** Calling [play_turn] repeatedly with no cap; the count is the number of
    calls that made a move.  [None] on an exception or when [fuel] runs out. *)
Fixpoint play_turns (fuel : nat) (s : sim) : option (nat * sim) :=
  match fuel with
  | O => None
  | S f =>
      match play_turn s with
      | None => None
      | Some (false, s') => Some (O, s')
      | Some (true, s') =>
          match play_turns f s' with
          | None => None
          | Some (n, s'') => Some (S n, s'')
          end
      end
  end.

Definition idshuffle (l : list Z) : list Z := l.

(** The state after [n] successive [play_turn] calls, whatever they answer. *)
Fixpoint run_n (n : nat) (s : sim) : option sim :=
  match n with
  | O => Some s
  | S k =>
      match play_turn s with
      | None => None
      | Some (_, s') => run_n k s'
      end
  end.

(** ** [run_simulations] *)

(** The games of [for i in range(num_games)]: a fresh simulator per game,
    [shuffles i] the outcome of [random.shuffle] in game [i]; the list is
    [results]. *)
Fixpoint run_games (shuffles : nat -> list Z -> list Z) (r c : Z) (i n : nat)
  : option (list Z) :=
  match n with
  | O => Some []
  | S n' =>
      match play_game_result (shuffles i) (new_sim r c) with
      | None => None
      | Some m =>
          match run_games shuffles r c (S i) n' with
          | None => None
          | Some rest => Some (m :: rest)
          end
      end
  end.

(** [min(results)] and [max(results)]; [None] is the [ValueError] of an
    empty list. *)
Definition py_min (l : list Z) : option Z :=
  match l with [] => None | x :: t => Some (fold_left Z.min t x) end.

Definition py_max (l : list Z) : option Z :=
  match l with [] => None | x :: t => Some (fold_left Z.max t x) end.

(** The statistics [run_simulations] prints.  [average] is the exact
    quotient [sum(results) / len(results)], which Python prints as the
    nearest float rounded to two places. *)
Record summary := mkSummary {
  num_simulations : Z;
  average : Q;
  min_moves : Z;
  max_moves : Z;
  summary_pairs : Z
}.

(** [run_simulations]: the printed summary, or [None] when it raises
    ([play_game] raising, or [ZeroDivisionError] when [results] is empty). *)
Definition run_simulations (shuffles : nat -> list Z -> list Z) (r c num_games : Z)
  : option summary :=
  match run_games shuffles r c 0 (Z.to_nat num_games) with
  | None => None
  | Some results =>
      match results with
      | [] => None
      | _ =>
          match py_min results, py_max results with
          | Some mn, Some mx =>
              Some (mkSummary num_games
                      (Qdiv (inject_Z (fold_left Z.add results 0)) (inject_Z (Z.of_nat (length results))))
                      mn mx ((r * c) / 2))
          | _, _ => None
          end
      end
  end.

(** Cells revealed but not yet matched. *)
Definition rev_unmatched (s : sim) : nat :=
  length (filter (fun p => is_rev (revealed s) p && negb (mem p (matched s))) (all_pos s)).

(** [self.board[row][col] == v], false off the board. *)
Definition sym_eqb (b : list (list Z)) (p : pos) (v : Z) : bool :=
  match get_symbol b p with Some w => Z.eqb w v | None => false end.


(** * Basic facts *)

Lemma pos_eqb_eq (p q : pos) : pos_eqb p q = true <-> p = q.
Proof.
  destruct p as [a b], q as [c d]; unfold pos_eqb; simpl.
  rewrite andb_true_iff, !Nat.eqb_eq; split; [intros [-> ->] | intros H; inversion H]; auto.
Qed.

Lemma pos_eqb_refl (p : pos) : pos_eqb p p = true.
Proof. apply pos_eqb_eq; reflexivity. Qed.

Lemma pos_eqb_neq (p q : pos) : pos_eqb p q = false <-> p <> q.
Proof. rewrite <- pos_eqb_eq. destruct (pos_eqb p q); split; congruence. Qed.

Lemma pos_eq_dec (p q : pos) : {p = q} + {p <> q}.
Proof. destruct (pos_eqb p q) eqn:E; [left | right]; [apply pos_eqb_eq | apply pos_eqb_neq]; auto. Qed.

Lemma mem_In (p : pos) (xs : list pos) : mem p xs = true <-> In p xs.
Proof.
  unfold mem; rewrite existsb_exists; split.
  - intros [x [Hx Hp]]. apply pos_eqb_eq in Hp; subst; auto.
  - intros H; exists p; split; auto using pos_eqb_refl.
Qed.

Lemma mem_notIn (p : pos) (xs : list pos) : mem p xs = false <-> ~ In p xs.
Proof. rewrite <- mem_In. destruct (mem p xs); split; congruence. Qed.

Lemma set_add_In (p q : pos) (m : list pos) : In q (set_add p m) <-> q = p \/ In q m.
Proof.
  unfold set_add; destruct (mem p m) eqn:E; simpl.
  - apply mem_In in E; split; [auto | intros [-> | H]; auto].
  - split; intros [H | H]; auto.
Qed.

Lemma set_add_NoDup (p : pos) (m : list pos) : NoDup m -> NoDup (set_add p m).
Proof.
  unfold set_add; destruct (mem p m) eqn:E; auto.
  intros H; constructor; auto. apply mem_notIn; auto.
Qed.

Lemma set_add_length_new (p : pos) (m : list pos) :
  ~ In p m -> length (set_add p m) = S (length m).
Proof. intros H; unfold set_add; apply mem_notIn in H; rewrite H; reflexivity. Qed.

Lemma set_add_length_le (p : pos) (m : list pos) :
  (length (set_add p m) <= S (length m))%nat.
Proof. unfold set_add; destruct (mem p m); simpl; lia. Qed.

Lemma set_add_length_ge (p : pos) (m : list pos) :
  (length m <= length (set_add p m))%nat.
Proof. unfold set_add; destruct (mem p m); simpl; lia. Qed.

Lemma rv_lookup_set (m : list (pos * Z)) (p q : pos) (v : Z) :
  rv_lookup (rv_set m p v) q = if pos_eqb q p then Some v else rv_lookup m q.
Proof.
  induction m as [| [r w] t IH]; simpl.
  - destruct (pos_eqb q p); reflexivity.
  - destruct (pos_eqb p r) eqn:Epr; simpl.
    + apply pos_eqb_eq in Epr; subst r. destruct (pos_eqb q p); reflexivity.
    + destruct (pos_eqb q r) eqn:Eqr; rewrite ?IH; auto.
      apply pos_eqb_eq in Eqr; subst r.
      destruct (pos_eqb q p) eqn:Eqp; auto.
      apply pos_eqb_eq in Eqp; subst; rewrite pos_eqb_refl in Epr; discriminate.
Qed.

Lemma is_rev_set (m : list (pos * Z)) (p q : pos) (v : Z) :
  is_rev (rv_set m p v) q = pos_eqb q p || is_rev m q.
Proof. unfold is_rev; rewrite rv_lookup_set; destruct (pos_eqb q p); reflexivity. Qed.

Lemma rv_lookup_In (m : list (pos * Z)) (p : pos) (v : Z) :
  rv_lookup m p = Some v -> In (p, v) m.
Proof.
  induction m as [| [q w] t IH]; simpl; [discriminate |].
  destruct (pos_eqb p q) eqn:E; intros H.
  - apply pos_eqb_eq in E; inversion H; subst; auto.
  - right; auto.
Qed.

Lemma In_rv_lookup (m : list (pos * Z)) (p : pos) (v : Z) :
  In (p, v) m -> exists w, rv_lookup m p = Some w.
Proof.
  induction m as [| [q w] t IH]; simpl; [tauto |].
  intros [H | H].
  - inversion H; subst; rewrite pos_eqb_refl; eauto.
  - destruct (pos_eqb p q); eauto.
Qed.

Lemma In_rv_set (m : list (pos * Z)) (p q : pos) (v w : Z) :
  In (q, w) (rv_set m p v) -> (q, w) = (p, v) \/ In (q, w) m.
Proof.
  induction m as [| [r u] t IH]; simpl; [intuition |].
  destruct (pos_eqb p r) eqn:E; simpl.
  - apply pos_eqb_eq in E; subst r. intros [H | H]; [left; inversion H; subst | ]; auto.
  - intros [H | H]; auto. destruct (IH H); auto.
Qed.

Lemma all_positions_In (r c : nat) (p : pos) :
  In p (all_positions r c) <-> (fst p < r /\ snd p < c)%nat.
Proof.
  destruct p as [i j]; unfold all_positions; rewrite in_flat_map; simpl; split.
  - intros [i' [Hi Hm]]. apply in_map_iff in Hm as [j' [Heq Hj]].
    inversion Heq; subst. apply in_seq in Hi, Hj. lia.
  - intros [Hi Hj]. exists i; split; [apply in_seq; lia |].
    apply in_map_iff; exists j; split; [reflexivity | apply in_seq; lia].
Qed.

Lemma NoDup_map_inj {A B : Type} (f : A -> B) (l : list A) :
  (forall x y, f x = f y -> x = y) -> NoDup l -> NoDup (map f l).
Proof.
  intros Hf H; induction H as [| x l Hx H IH]; simpl; constructor; auto.
  intros Hin; apply in_map_iff in Hin as [y [Hy Hyl]]. apply Hf in Hy; subst; auto.
Qed.

Lemma all_positions_NoDup (r c : nat) : NoDup (all_positions r c).
Proof.
  unfold all_positions. pose proof (seq_NoDup c 0) as Hjs.
  generalize dependent (seq 0 c); intros js Hjs. generalize 0%nat as k.
  induction r as [| r IH]; intros k; simpl; [constructor |].
  apply NoDup_app.
  - apply NoDup_map_inj; [intros x y H; inversion H; auto | auto].
  - apply IH.
  - intros x Hx Hy. apply in_map_iff in Hx as [j [<- _]].
    apply in_flat_map in Hy as [i [Hi Hm]]. apply in_map_iff in Hm as [j' [Heq _]].
    inversion Heq; subst. apply in_seq in Hi. lia.
Qed.

Lemma all_positions_length (r c : nat) : length (all_positions r c) = (r * c)%nat.
Proof.
  unfold all_positions. generalize (seq 0 c) (length_seq c 0).
  intros js Hjs. generalize 0%nat as k.
  induction r as [| r IH]; intros k; simpl; [reflexivity |].
  rewrite length_app, length_map, Hjs, IH. reflexivity.
Qed.

(** * [setup_board]: the row-major layout *)

Lemma build_row_eq (pairs : list Z) (n idx : nat) :
  (idx + n <= length pairs)%nat ->
  build_row pairs idx n = Some (firstn n (skipn idx pairs)).
Proof.
  revert idx; induction n as [| n IH]; intros idx H; simpl; [reflexivity |].
  destruct (nth_error pairs idx) eqn:E.
  - rewrite IH by lia.
    assert (Hs : skipn idx pairs = z :: skipn (S idx) pairs).
    { clear -E. revert idx E; induction pairs as [| a t IHp]; intros [| i] E; simpl in *;
        try discriminate; [inversion E; reflexivity | apply IHp; auto]. }
    rewrite Hs; reflexivity.
  - apply nth_error_None in E; lia.
Qed.

Lemma build_row_none (pairs : list Z) (n idx : nat) :
  (0 < n)%nat -> (length pairs < idx + n)%nat -> build_row pairs idx n = None.
Proof.
  revert idx; induction n as [| n IH]; intros idx Hn H; simpl; [lia |].
  destruct (nth_error pairs idx) eqn:E; [| reflexivity].
  assert (idx < length pairs)%nat by (apply nth_error_Some; congruence).
  rewrite IH by lia. reflexivity.
Qed.

(** The grid that [setup_board] lays out from [pairs], starting at [idx]. *)
Definition grid_of (pairs : list Z) (idx r c : nat) : list (list Z) :=
  map (fun i => firstn c (skipn (idx + i * c) pairs)) (seq 0 r).

Lemma grid_of_S (pairs : list Z) (idx r c : nat) :
  grid_of pairs idx (S r) c = firstn c (skipn idx pairs) :: grid_of pairs (idx + c) r c.
Proof.
  unfold grid_of; simpl. rewrite Nat.add_0_r. f_equal.
  rewrite <- seq_shift, map_map. apply map_ext; intros i. f_equal. f_equal. lia.
Qed.

Lemma build_board_eq (pairs : list Z) (r c idx : nat) :
  (idx + r * c <= length pairs)%nat ->
  build_board pairs idx r c = Some (grid_of pairs idx r c).
Proof.
  revert idx; induction r as [| r IH]; intros idx H; simpl; [reflexivity |].
  rewrite build_row_eq by lia. rewrite IH by lia.
  rewrite grid_of_S; reflexivity.
Qed.

Lemma build_board_none (pairs : list Z) (r c idx : nat) :
  (0 < c)%nat -> (0 < r)%nat -> (length pairs < idx + r * c)%nat ->
  build_board pairs idx r c = None.
Proof.
  revert idx; induction r as [| r IH]; intros idx Hc Hr H; simpl; [lia |].
  destruct (Nat.le_gt_cases (idx + c) (length pairs)) as [Hle | Hlt].
  - rewrite build_row_eq by lia. destruct r as [| r]; [lia |].
    rewrite IH by lia. reflexivity.
  - rewrite build_row_none by lia. reflexivity.
Qed.

Lemma grid_of_length (pairs : list Z) (idx r c : nat) :
  length (grid_of pairs idx r c) = r.
Proof. unfold grid_of; rewrite length_map, length_seq; reflexivity. Qed.

Lemma grid_of_rows (pairs : list Z) (idx r c : nat) :
  (idx + r * c <= length pairs)%nat ->
  Forall (fun row => length row = c) (grid_of pairs idx r c).
Proof.
  intros H; unfold grid_of; apply Forall_forall; intros row Hrow.
  apply in_map_iff in Hrow as [i [<- Hi]]; apply in_seq in Hi.
  rewrite length_firstn, length_skipn. nia.
Qed.

Lemma firstn_add_split {A : Type} (a b : nat) (l : list A) :
  firstn (a + b) l = firstn a l ++ firstn b (skipn a l).
Proof.
  revert l; induction a as [| a IH]; intros [| x l]; simpl; auto.
  - rewrite firstn_nil; reflexivity.
  - rewrite IH; reflexivity.
Qed.

Lemma grid_of_concat (pairs : list Z) (idx r c : nat) :
  concat (grid_of pairs idx r c) = firstn (r * c) (skipn idx pairs).
Proof.
  revert idx; induction r as [| r IH]; intros idx; [reflexivity |].
  rewrite grid_of_S; simpl. rewrite IH, firstn_add_split, skipn_skipn.
  do 3 f_equal. lia.
Qed.

Lemma grid_of_get_symbol (pairs : list Z) (r c i j : nat) :
  (i < r)%nat -> (j < c)%nat -> (r * c <= length pairs)%nat ->
  get_symbol (grid_of pairs 0 r c) (i, j) = nth_error pairs (i * c + j).
Proof.
  intros Hi Hj Hl. unfold get_symbol, grid_of; simpl.
  rewrite nth_error_map, nth_error_seq.
  destruct (Nat.ltb_spec i r); [| lia]. simpl.
  rewrite nth_error_firstn. destruct (Nat.ltb_spec j c); [| lia].
  rewrite nth_error_skipn. f_equal.
Qed.

(** * Each symbol twice: every cell has exactly one partner *)

Fixpoint idxs_of (v : Z) (l : list Z) (k : nat) : list nat :=
  match l with
  | [] => []
  | x :: t => if Z.eqb x v then k :: idxs_of v t (S k) else idxs_of v t (S k)
  end.

Lemma idxs_of_length (v : Z) (l : list Z) (k : nat) :
  length (idxs_of v l k) = count_occ Z.eq_dec l v.
Proof.
  revert k; induction l as [| x t IH]; intros k; simpl; auto.
  destruct (Z.eqb_spec x v), (Z.eq_dec x v); simpl; try congruence; rewrite IH; auto.
Qed.

Lemma idxs_of_In (v : Z) (l : list Z) (k i : nat) :
  In i (idxs_of v l k) <-> (k <= i /\ nth_error l (i - k) = Some v)%nat.
Proof.
  revert k; induction l as [| x t IH]; intros k; simpl.
  - split; [tauto | intros [_ H]; destruct (i - k)%nat; discriminate].
  - assert (Hstep : (k <= i /\ nth_error (x :: t) (i - k) = Some v)%nat <->
                    (i = k /\ x = v) \/ (S k <= i /\ nth_error t (i - S k) = Some v)%nat).
    { split.
      - intros [Hk Hn]. destruct (Nat.eq_dec i k) as [-> | Hne].
        + rewrite Nat.sub_diag in Hn; simpl in Hn; inversion Hn; auto.
        + right; split; [lia |]. replace (i - k)%nat with (S (i - S k)) in Hn by lia; auto.
      - intros [[-> ->] | [Hk Hn]].
        + rewrite Nat.sub_diag; auto.
        + split; [lia |]. replace (i - k)%nat with (S (i - S k)) by lia; auto. }
    rewrite Hstep, <- IH.
    destruct (Z.eqb_spec x v); simpl; intuition congruence.
Qed.

Lemma idxs_of_NoDup (v : Z) (l : list Z) (k : nat) : NoDup (idxs_of v l k).
Proof.
  revert k; induction l as [| x t IH]; intros k; simpl; [constructor |].
  destruct (Z.eqb x v); auto. constructor; auto.
  intros H; apply idxs_of_In in H; lia.
Qed.

Lemma count2_partner (l : list Z) (v : Z) (k : nat) :
  count_occ Z.eq_dec l v = 2%nat -> nth_error l k = Some v ->
  exists k', k' <> k /\ nth_error l k' = Some v /\
    forall k'', nth_error l k'' = Some v -> k'' = k \/ k'' = k'.
Proof.
  intros Hc Hk. rewrite <- (idxs_of_length v l 0) in Hc.
  pose proof (idxs_of_NoDup v l 0) as Hnd.
  assert (Hin : forall i, In i (idxs_of v l 0) <-> nth_error l i = Some v).
  { intros i; rewrite idxs_of_In, Nat.sub_0_r; split; [tauto | split; [lia | auto]]. }
  destruct (idxs_of v l 0) as [| a [| b [| ? ?]]]; simpl in Hc; try discriminate.
  inversion Hnd as [| ? ? Hab _]; subst. simpl in Hab.
  apply Hin in Hk; simpl in Hk.
  destruct Hk as [-> | [-> | []]].
  - exists b; split; [intros ->; auto |]. split; [apply Hin; simpl; auto |].
    intros k'' H; apply Hin in H; simpl in H; intuition.
  - exists a; split; [intros ->; auto |]. split; [apply Hin; simpl; auto |].
    intros k'' H; apply Hin in H; simpl in H; intuition.
Qed.

Lemma zrange_In (n v : Z) : In v (zrange n) <-> 0 <= v < n.
Proof.
  unfold zrange; rewrite in_map_iff; split.
  - intros [k [<- Hk]]. apply in_seq in Hk. lia.
  - intros H; exists (Z.to_nat v); split; [lia | apply in_seq; lia].
Qed.

Lemma zrange_NoDup (n : Z) : NoDup (zrange n).
Proof. unfold zrange; apply NoDup_map_inj; [lia | apply seq_NoDup]. Qed.

Lemma zrange_length (n : Z) : length (zrange n) = Z.to_nat n.
Proof. unfold zrange; rewrite length_map, length_seq; reflexivity. Qed.

Lemma pairs_count (n v : Z) :
  0 <= v < n -> count_occ Z.eq_dec (zrange n ++ zrange n) v = 2%nat.
Proof.
  intros H. rewrite count_occ_app.
  assert (Hv : In v (zrange n)) by (apply zrange_In; auto).
  pose proof (proj1 (NoDup_count_occ' Z.eq_dec (zrange n)) (zrange_NoDup n) v Hv) as E.
  rewrite E; reflexivity.
Qed.

(** Row-major index of a cell. *)
Lemma index_inj (c i j i' j' : nat) :
  (j < c)%nat -> (j' < c)%nat -> (i * c + j = i' * c + j')%nat -> i = i' /\ j = j'.
Proof.
  intros Hj Hj' H.
  destruct (Nat.lt_trichotomy i i') as [Hlt | [-> | Hlt]].
  - assert (i * c + c <= i' * c)%nat by nia. lia.
  - split; [reflexivity | lia].
  - assert (i' * c + c <= i * c)%nat by nia. lia.
Qed.

Lemma index_surj (r c k : nat) :
  (k < r * c)%nat -> exists i j, (i < r)%nat /\ (j < c)%nat /\ k = (i * c + j)%nat.
Proof.
  intros Hk. assert (Hc : c <> 0%nat) by (intros ->; lia).
  exists (k / c)%nat, (k mod c)%nat. split; [| split].
  - apply Nat.Div0.div_lt_upper_bound; lia.
  - apply Nat.mod_upper_bound; auto.
  - pose proof (Nat.div_mod k c Hc). lia.
Qed.

(** * Well-formed boards *)

Record board_ok (s : sim) : Prop := {
  bo_rows : 0 <= rows s;
  bo_cols : 0 <= cols s;
  bo_total : total_cards s = rows s * cols s;
  bo_sym : forall p, In p (all_pos s) -> exists v, get_symbol (board s) p = Some v;
  bo_partner : forall p, In p (all_pos s) ->
    exists q, In q (all_pos s) /\ q <> p /\ get_symbol (board s) q = get_symbol (board s) p;
  bo_unique : forall p q1 q2, In p (all_pos s) -> In q1 (all_pos s) -> In q2 (all_pos s) ->
    q1 <> p -> q2 <> p ->
    get_symbol (board s) q1 = get_symbol (board s) p ->
    get_symbol (board s) q2 = get_symbol (board s) p -> q1 = q2
}.

Lemma pairs_of_length (r c : Z) :
  0 <= r -> 0 <= c -> Z.even (r * c) = true ->
  length (pairs_of (new_sim r c)) = (Z.to_nat r * Z.to_nat c)%nat.
Proof.
  intros Hr Hc He. unfold pairs_of, new_sim; simpl.
  rewrite length_app, zrange_length.
  apply Z.even_spec in He as [k Hk]. rewrite Hk, Z.mul_comm, Z.div_mul by lia.
  rewrite <- Z2Nat.inj_mul by lia. lia.
Qed.

Lemma pairs_of_values (r c v : Z) :
  In v (pairs_of (new_sim r c)) -> count_occ Z.eq_dec (pairs_of (new_sim r c)) v = 2%nat.
Proof.
  unfold pairs_of; intros H. apply in_app_or in H.
  apply pairs_count. destruct H as [H | H]; apply zrange_In in H; auto.
Qed.

Lemma grid_sym_index (l : list Z) (r c : nat) (p : pos) :
  length l = (r * c)%nat -> In p (all_positions r c) ->
  get_symbol (grid_of l 0 r c) p = nth_error l (fst p * c + snd p) /\
  (fst p * c + snd p < r * c)%nat.
Proof.
  intros Hl Hp. destruct p as [i j]. apply all_positions_In in Hp as [Hi Hj]; simpl in *.
  split; [apply grid_of_get_symbol; lia | nia].
Qed.

Lemma setup_board_with_ok (shuffled : list Z) (r c : Z) :
  0 <= r -> 0 <= c -> Z.even (r * c) = true ->
  Permutation (pairs_of (new_sim r c)) shuffled ->
  setup_board_with shuffled (new_sim r c) =
    Some (with_board (new_sim r c) (grid_of shuffled 0 (Z.to_nat r) (Z.to_nat c))) /\
  board_ok (with_board (new_sim r c) (grid_of shuffled 0 (Z.to_nat r) (Z.to_nat c))).
Proof.
  intros Hr Hc He Hperm.
  set (R := Z.to_nat r); set (C := Z.to_nat c).
  assert (Hlen : length shuffled = (R * C)%nat).
  { rewrite <- (Permutation_length Hperm). apply pairs_of_length; auto. }
  split.
  { unfold setup_board_with; simpl. rewrite build_board_eq by lia. reflexivity. }
  assert (HAP : all_pos (with_board (new_sim r c) (grid_of shuffled 0 R C)) = all_positions R C)
    by reflexivity.
  assert (Hcnt : forall v, In v shuffled -> count_occ Z.eq_dec shuffled v = 2%nat).
  { intros v Hv. rewrite <- (proj1 (Permutation_count_occ Z.eq_dec _ _) Hperm).
    apply pairs_of_values. apply Permutation_in with (l := shuffled); auto.
    apply Permutation_sym; auto. }
  assert (Hpos : forall k, (k < R * C)%nat -> exists q, In q (all_positions R C) /\
                   (fst q * C + snd q)%nat = k).
  { intros k Hk. destruct (index_surj R C k Hk) as [i [j [Hi [Hj ->]]]].
    exists (i, j); split; [apply all_positions_In; simpl; lia | reflexivity]. }
  assert (Hinj : forall p q, In p (all_positions R C) -> In q (all_positions R C) ->
                   (fst p * C + snd p)%nat = (fst q * C + snd q)%nat -> p = q).
  { intros [i j] [i' j'] Hp Hq E. apply all_positions_In in Hp, Hq; simpl in *.
    destruct (index_inj C i j i' j') as [-> ->]; auto; tauto. }
  constructor; simpl; try rewrite HAP; auto.
  - intros p Hp. destruct (grid_sym_index shuffled R C p Hlen Hp) as [-> Hk].
    rewrite <- Hlen in Hk; apply nth_error_Some in Hk.
    destruct (nth_error shuffled (fst p * C + snd p)); [eauto | congruence].
  - intros p Hp. destruct (grid_sym_index shuffled R C p Hlen Hp) as [Ep Hk].
    assert (Hk' := Hk). rewrite <- Hlen in Hk'. apply nth_error_Some in Hk'.
    destruct (nth_error shuffled (fst p * C + snd p)) as [v |] eqn:Ev; [| congruence].
    destruct (count2_partner shuffled v _ (Hcnt v (nth_error_In _ _ Ev)) Ev)
      as [k' [Hne [Ek' _]]].
    assert (Hk'' : (k' < R * C)%nat) by (rewrite <- Hlen; apply nth_error_Some; congruence).
    destruct (Hpos k' Hk'') as [q [Hq Eq]].
    exists q; split; [auto | split].
    + intros ->. congruence.
    + rewrite Ep. destruct (grid_sym_index shuffled R C q Hlen Hq) as [-> _]. congruence.
  - intros p q1 q2 Hp Hq1 Hq2 N1 N2 E1 E2.
    destruct (grid_sym_index shuffled R C p Hlen Hp) as [Ep Hk].
    destruct (grid_sym_index shuffled R C q1 Hlen Hq1) as [Eq1 _].
    destruct (grid_sym_index shuffled R C q2 Hlen Hq2) as [Eq2 _].
    rewrite Ep, Eq1 in E1. rewrite Ep, Eq2 in E2.
    destruct (nth_error shuffled (fst p * C + snd p)) as [v |] eqn:Ev;
      [| apply nth_error_Some in Ev; lia].
    destruct (count2_partner shuffled v _ (Hcnt v (nth_error_In _ _ Ev)) Ev)
      as [k' [_ [_ Hall]]].
    destruct (Hall _ E1) as [F1 | F1]; [exfalso; apply N1; apply Hinj; auto |].
    destruct (Hall _ E2) as [F2 | F2]; [exfalso; apply N2; apply Hinj; auto |].
    apply Hinj; auto; congruence.
Qed.

(** * The invariant of a game in progress *)

Definition unrev_count (s : sim) : nat :=
  length (filter (fun p => negb (is_rev (revealed s) p)) (all_pos s)).

Record inv (s : sim) : Prop := {
  iv_board : board_ok s;
  iv_rv : forall p v, In (p, v) (revealed s) ->
    In p (all_pos s) /\ get_symbol (board s) p = Some v;
  iv_mrev : forall p, In p (matched s) -> is_rev (revealed s) p = true;
  iv_mnodup : NoDup (matched s);
  iv_mclosed : forall p q, In p (matched s) -> In q (all_pos s) -> q <> p ->
    get_symbol (board s) q = get_symbol (board s) p -> In q (matched s);
  iv_even : Nat.even (unrev_count s) = true;
  iv_moves : moves s = exploratory_moves s;
  iv_moves_nonneg : 0 <= moves s;
  iv_perfect_nonneg : 0 <= perfect_matches s;
  iv_meven : Nat.even (length (matched s)) = true
}.

(** Cards still to be matched plus cards never seen; every move lowers it by two. *)
Definition measure (s : sim) : nat :=
  (length (all_pos s) - length (matched s) + unrev_count s)%nat.

Lemma filter_unrev_nil (l : list pos) :
  filter (fun p => negb (is_rev [] p)) l = l.
Proof. induction l as [| x t IH]; [reflexivity | cbn [filter]; rewrite IH; reflexivity]. Qed.

Lemma inv_setup (shuffled : list Z) (r c : Z) :
  0 <= r -> 0 <= c -> Z.even (r * c) = true ->
  Permutation (pairs_of (new_sim r c)) shuffled ->
  exists s, setup_board_with shuffled (new_sim r c) = Some s /\ inv s /\
    measure s = (2 * (Z.to_nat r * Z.to_nat c))%nat /\ matched s = [] /\
    total_cards s = r * c.
Proof.
  intros Hr Hc He Hp. destruct (setup_board_with_ok shuffled r c Hr Hc He Hp) as [E Hok].
  eexists; split; [exact E |].
  assert (Hu : unrev_count (with_board (new_sim r c) (grid_of shuffled 0 (Z.to_nat r) (Z.to_nat c)))
               = (Z.to_nat r * Z.to_nat c)%nat :> nat).
  { unfold unrev_count, all_pos; simpl. rewrite filter_unrev_nil, all_positions_length. reflexivity. }
  split; [| split; [| split; reflexivity]].
  - constructor; simpl; auto; try tauto; try (intros; lia); try constructor.
    rewrite Hu, <- Z2Nat.inj_mul by lia.
    apply Z.even_spec in He as [k Hk]. rewrite Hk, Z2Nat.inj_mul by lia.
    rewrite Nat.even_mul; reflexivity.
  - unfold measure. rewrite Hu. unfold all_pos; simpl. rewrite all_positions_length. lia.
Qed.

(** * Facts about the queries of [play_turn] *)

Lemma find_known_match_spec (s : sim) (v : Z) (y : pos) :
  find_known_match s v = Some y -> In (y, v) (revealed s) /\ ~ In y (matched s).
Proof.
  unfold find_known_match.
  destruct (filter _ (revealed s)) as [| [y' w] t] eqn:E; simpl; [discriminate |].
  intros H; inversion H; subst y'.
  assert (Hin : In (y, w) (filter (fun '(p, sym) => Z.eqb sym v && negb (mem p (matched s)))
                             (revealed s))) by (rewrite E; left; reflexivity).
  apply filter_In in Hin as [Hin Hc]. apply andb_true_iff in Hc as [Hw Hm].
  apply Z.eqb_eq in Hw; subst w. split; auto.
  apply negb_true_iff, mem_notIn in Hm; auto.
Qed.

Lemma find_known_match_some (s : sim) (v : Z) (x : pos) :
  In (x, v) (revealed s) -> ~ In x (matched s) -> exists y, find_known_match s v = Some y.
Proof.
  intros Hx Hm. unfold find_known_match.
  assert (Hin : In (x, v) (filter (fun '(p, sym) => Z.eqb sym v && negb (mem p (matched s)))
                             (revealed s))).
  { apply filter_In; split; auto. rewrite Z.eqb_refl. apply mem_notIn in Hm; rewrite Hm; reflexivity. }
  destruct (filter _ (revealed s)) as [| [y w] t]; simpl; [contradiction | eauto].
Qed.

Lemma known_loop_some (s : sim) (l : list pos) (p q : pos) :
  known_loop s l = Some (p, q) ->
  In p l /\ q <> p /\ exists v, rv_lookup (revealed s) p = Some v /\ find_known_match s v = Some q.
Proof.
  induction l as [| x t IH]; simpl; [discriminate |].
  destruct (rv_lookup (revealed s) x) as [v |] eqn:Ex.
  - destruct (find_known_match s v) as [y |] eqn:Ey.
    + destruct (pos_eqb y x) eqn:Eyx; simpl.
      * intros H; destruct (IH H) as [? [? ?]]; split; [right |]; auto.
      * intros H; inversion H; subst. apply pos_eqb_neq in Eyx.
        split; [left |]; eauto.
    + intros H; destruct (IH H) as [? [? ?]]; split; [right |]; auto.
  - intros H; destruct (IH H) as [? [? ?]]; split; [right |]; auto.
Qed.

Lemma known_loop_none (s : sim) (l : list pos) (x : pos) (v : Z) :
  known_loop s l = None -> In x l -> rv_lookup (revealed s) x = Some v ->
  find_known_match s v = None \/ find_known_match s v = Some x.
Proof.
  induction l as [| y t IH]; simpl; [tauto |].
  intros H [-> | Hx] Hv.
  - rewrite Hv in H. destruct (find_known_match s v) as [z |] eqn:Ez; auto.
    destruct (pos_eqb z x) eqn:Ezx; [apply pos_eqb_eq in Ezx; subst; auto | discriminate].
  - apply IH; auto.
    destruct (rv_lookup (revealed s) y) as [w |]; auto.
    destruct (find_known_match s w) as [z |]; auto.
    destruct (negb (pos_eqb z y)); [discriminate | auto].
Qed.

Lemma make_move_fields (s s' : sim) (p1 p2 : pos) (k : bool) :
  make_move s p1 p2 k = Some s' ->
  exists v1 v2, get_symbol (board s) p1 = Some v1 /\ get_symbol (board s) p2 = Some v2 /\
    rows s' = rows s /\ cols s' = cols s /\ total_cards s' = total_cards s /\
    board s' = board s /\ revealed s' = rv_set (rv_set (revealed s) p1 v1) p2 v2 /\
    ((v1 = v2 /\ matched s' = set_add p2 (set_add p1 (matched s)) /\ moves s' = moves s /\
      exploratory_moves s' = exploratory_moves s /\
      perfect_matches s' = (if k then perfect_matches s + 1 else perfect_matches s)) \/
     (v1 <> v2 /\ matched s' = matched s /\ moves s' = moves s + 1 /\
      exploratory_moves s' = exploratory_moves s + 1 /\
      perfect_matches s' = perfect_matches s)).
Proof.
  unfold make_move; intros Hs.
  destruct (get_symbol (board s) p1) as [v1 |] eqn:E1; [| discriminate].
  destruct (get_symbol (board s) p2) as [v2 |] eqn:E2; [| discriminate].
  exists v1, v2.
  destruct (Z.eqb_spec v1 v2) as [Hv | Hv]; inversion Hs; subst; simpl;
    (split; [auto | split; [auto |]]); repeat split; [left | right]; repeat split; auto.
Qed.

Lemma make_move_exists (s : sim) (p1 p2 : pos) (k : bool) :
  board_ok s -> In p1 (all_pos s) -> In p2 (all_pos s) -> exists s', make_move s p1 p2 k = Some s'.
Proof.
  intros Hb H1 H2. destruct (bo_sym s Hb p1 H1) as [v1 E1], (bo_sym s Hb p2 H2) as [v2 E2].
  unfold make_move; rewrite E1, E2. destruct (Z.eqb v1 v2); eauto.
Qed.

Lemma filter_remove_one (f : pos -> bool) (l : list pos) (p : pos) :
  NoDup l -> In p l -> f p = true ->
  length (filter f l) = S (length (filter (fun x => f x && negb (pos_eqb x p)) l)).
Proof.
  induction l as [| x t IH]; simpl; [tauto |].
  intros Hnd [<- | Hin] Hf; inversion Hnd as [| ? ? Hx Ht]; subst.
  - rewrite Hf, pos_eqb_refl; simpl. f_equal.
    apply f_equal, filter_ext_in. intros y Hy.
    destruct (pos_eqb y x) eqn:E; [apply pos_eqb_eq in E; subst; contradiction |].
    rewrite andb_true_r; reflexivity.
  - destruct (pos_eqb x p) eqn:E; [apply pos_eqb_eq in E; subst; contradiction |].
    rewrite andb_true_r. destruct (f x); simpl; rewrite IH; auto.
Qed.

Lemma filter_filter_pos (f g : pos -> bool) (l : list pos) :
  filter f (filter g l) = filter (fun x => g x && f x) l.
Proof.
  induction l as [| x t IH]; simpl; auto.
  destruct (g x); simpl; [destruct (f x); simpl; rewrite IH |]; auto.
Qed.

Lemma all_pos_same (s s' : sim) :
  rows s' = rows s -> cols s' = cols s -> all_pos s' = all_pos s.
Proof. unfold all_pos; intros -> ->; reflexivity. Qed.

Lemma matched_le (s : sim) : inv s -> (length (matched s) <= length (all_pos s))%nat.
Proof.
  intros Hi. apply NoDup_incl_length; [apply (iv_mnodup s Hi) |].
  intros p Hp. pose proof (iv_mrev s Hi p Hp) as E. unfold is_rev in E.
  destruct (rv_lookup (revealed s) p) as [v |] eqn:Ev; [| discriminate].
  apply rv_lookup_In in Ev. apply (iv_rv s Hi) in Ev; tauto.
Qed.

Lemma is_rev_set2 (m : list (pos * Z)) (p1 p2 q : pos) (v1 v2 : Z) :
  is_rev (rv_set (rv_set m p1 v1) p2 v2) q = pos_eqb q p2 || (pos_eqb q p1 || is_rev m q).
Proof. rewrite !is_rev_set; reflexivity. Qed.

Lemma make_move_inv (s s' : sim) (p1 p2 : pos) (k : bool) :
  inv s -> In p1 (all_pos s) -> In p2 (all_pos s) -> p1 <> p2 ->
  ~ In p1 (matched s) -> ~ In p2 (matched s) ->
  ((is_rev (revealed s) p1 = true /\ is_rev (revealed s) p2 = true /\
    get_symbol (board s) p1 = get_symbol (board s) p2) \/
   (is_rev (revealed s) p1 = false /\ is_rev (revealed s) p2 = false)) ->
  make_move s p1 p2 k = Some s' ->
  inv s' /\ (measure s' + 2 <= measure s)%nat.
Proof.
  intros Hi H1 H2 Hne Hm1 Hm2 Hcase Hmv.
  destruct (make_move_fields s s' p1 p2 k Hmv)
    as [v1 [v2 [E1 [E2 [Er [Ec [Et [Eb [Erv Hres]]]]]]]]].
  pose proof (all_pos_same s s' Er Ec) as Eap.
  pose proof (iv_board s Hi) as Hb.
  (* the revealed cells of [s'] *)
  assert (Hrev : forall q, is_rev (revealed s') q =
                           pos_eqb q p2 || (pos_eqb q p1 || is_rev (revealed s) q)).
  { intros q; rewrite Erv; apply is_rev_set2. }
  (* the unrevealed count *)
  assert (Hunrev : (unrev_count s' + (if is_rev (revealed s) p1 then 0 else 2) = unrev_count s)%nat).
  { unfold unrev_count. rewrite Eap.
    destruct Hcase as [[R1 [R2 _]] | [R1 R2]]; rewrite R1.
    - rewrite Nat.add_0_r. f_equal. apply filter_ext. intros q. rewrite Hrev.
      destruct (pos_eqb q p2) eqn:Q2; [apply pos_eqb_eq in Q2; subst; rewrite R2; reflexivity |].
      destruct (pos_eqb q p1) eqn:Q1; [apply pos_eqb_eq in Q1; subst; rewrite R1; reflexivity |].
      reflexivity.
    - pose proof (all_positions_NoDup (Z.to_nat (rows s)) (Z.to_nat (cols s))) as Hnd.
      fold (all_pos s) in Hnd.
      rewrite (filter_remove_one (fun p => negb (is_rev (revealed s) p)) (all_pos s) p1)
        by (auto; cbv beta; rewrite R1; reflexivity).
      rewrite (filter_remove_one (fun x => negb (is_rev (revealed s) x) && negb (pos_eqb x p1))
                 (all_pos s) p2); auto.
      2: { cbv beta. rewrite R2. simpl. apply negb_true_iff, pos_eqb_neq; auto. }
      replace (filter (fun q => negb (is_rev (revealed s') q)) (all_pos s))
        with (filter (fun x => (negb (is_rev (revealed s) x) && negb (pos_eqb x p1))
                               && negb (pos_eqb x p2)) (all_pos s)); [lia |].
      apply filter_ext; intros q. rewrite Hrev.
      destruct (pos_eqb q p2), (pos_eqb q p1), (is_rev (revealed s) q); reflexivity. }
  assert (Hml := matched_le s Hi).
  destruct Hres as [[Hv [Em [Emv [Eex Epf]]]] | [Hv [Em [Emv [Eex Epf]]]]].
  - subst v2.
    assert (Hlen : length (matched s') = S (S (length (matched s)))).
    { rewrite Em, set_add_length_new, set_add_length_new; auto.
      rewrite set_add_In; intros [-> | ]; auto. }
    assert (Hml' : (length (matched s') <= length (all_pos s'))%nat).
    { rewrite Eap. apply NoDup_incl_length.
      - rewrite Em; apply set_add_NoDup, set_add_NoDup, (iv_mnodup s Hi).
      - intros q Hq. rewrite Em, !set_add_In in Hq. destruct Hq as [-> | [-> | Hq]]; auto.
        pose proof (iv_mrev s Hi q Hq) as E. unfold is_rev in E.
        destruct (rv_lookup (revealed s) q) as [w |] eqn:Ew; [| discriminate].
        apply rv_lookup_In, (iv_rv s Hi) in Ew; tauto. }
    split.
    + constructor.
      * constructor; rewrite ?Eap, ?Eb, ?Er, ?Ec, ?Et; apply Hb.
      * intros q w Hq. rewrite Erv in Hq. rewrite Eap, Eb.
        apply In_rv_set in Hq as [Hq | Hq]; [inversion Hq; subst; auto |].
        apply In_rv_set in Hq as [Hq | Hq]; [inversion Hq; subst; auto |].
        apply (iv_rv s Hi); auto.
      * intros q Hq. rewrite Hrev. rewrite Em, !set_add_In in Hq.
        destruct Hq as [-> | [-> | Hq]]; [rewrite pos_eqb_refl; reflexivity | |].
        -- rewrite pos_eqb_refl, orb_true_r; reflexivity.
        -- rewrite (iv_mrev s Hi q Hq), !orb_true_r; reflexivity.
      * rewrite Em; apply set_add_NoDup, set_add_NoDup, (iv_mnodup s Hi).
      * intros p q Hp Hq Hqp Hsym. rewrite Eap in Hq. rewrite Eb in Hsym. rewrite Em, !set_add_In in *.
        destruct Hp as [-> | [-> | Hp]].
        -- right; left. apply (bo_unique s Hb p2 q p1); auto. congruence.
        -- left. apply (bo_unique s Hb p1 q p2); auto. congruence.
        -- right; right. apply (iv_mclosed s Hi p q); auto.
      * pose proof (iv_even s Hi) as Ev. rewrite <- Hunrev in Ev.
        destruct (is_rev (revealed s) p1); [rewrite Nat.add_0_r in Ev; auto |].
        rewrite Nat.add_comm in Ev. simpl in Ev. auto.
      * rewrite Emv, Eex; apply (iv_moves s Hi).
      * rewrite Emv; apply (iv_moves_nonneg s Hi).
      * rewrite Epf. pose proof (iv_perfect_nonneg s Hi). destruct k; lia.
      * rewrite Hlen. apply (iv_meven s Hi).
    + unfold measure. rewrite <- Hunrev, Hlen, Eap. rewrite Eap in Hml'.
      destruct (is_rev (revealed s) p1); lia.
  - (* a miss can only happen on two unrevealed cells *)
    destruct Hcase as [[_ [_ Hs]] | [R1 R2]]; [congruence |].
    rewrite R1 in Hunrev.
    split.
    + constructor.
      * constructor; rewrite ?Eap, ?Eb, ?Er, ?Ec, ?Et; apply Hb.
      * intros q w Hq. rewrite Erv in Hq. rewrite Eap, Eb.
        apply In_rv_set in Hq as [Hq | Hq]; [inversion Hq; subst; auto |].
        apply In_rv_set in Hq as [Hq | Hq]; [inversion Hq; subst; auto |].
        apply (iv_rv s Hi); auto.
      * intros q Hq. rewrite Hrev. rewrite Em in Hq.
        rewrite (iv_mrev s Hi q Hq), !orb_true_r; reflexivity.
      * rewrite Em; apply (iv_mnodup s Hi).
      * intros p q Hp Hq Hqp Hsym. rewrite Eap in Hq. rewrite Eb in Hsym. rewrite Em in *.
        apply (iv_mclosed s Hi p q); auto.
      * pose proof (iv_even s Hi) as Ev. rewrite <- Hunrev in Ev.
        rewrite Nat.add_comm in Ev. simpl in Ev. auto.
      * rewrite Emv, Eex, (iv_moves s Hi); reflexivity.
      * rewrite Emv. pose proof (iv_moves_nonneg s Hi). lia.
      * rewrite Epf; apply (iv_perfect_nonneg s Hi).
      * rewrite Em; apply (iv_meven s Hi).
    + unfold measure. rewrite <- Hunrev, Em, Eap. lia.
Qed.

(** * One turn of [play_turn] on a game satisfying [inv] *)

Lemma total_cards_inv (s : sim) :
  inv s -> total_cards s = Z.of_nat (length (all_pos s)).
Proof.
  intros Hi. pose proof (iv_board s Hi) as Hb.
  rewrite (bo_total s Hb). unfold all_pos. rewrite all_positions_length.
  pose proof (bo_rows s Hb); pose proof (bo_cols s Hb). lia.
Qed.

Lemma play_turn_complete (s : sim) :
  inv s -> length (matched s) = length (all_pos s) -> play_turn s = Some (false, s).
Proof.
  intros Hi Hl. unfold play_turn. rewrite (total_cards_inv s Hi), Hl, Z.eqb_refl. reflexivity.
Qed.

Lemma unrevealed_of_eq (s : sim) :
  inv s -> unrevealed_of s (get_unmatched_positions s) =
           filter (fun p => negb (is_rev (revealed s) p)) (all_pos s).
Proof.
  intros Hi. unfold unrevealed_of, get_unmatched_positions. rewrite filter_filter_pos.
  apply filter_ext. intros p.
  destruct (is_rev (revealed s) p) eqn:E; [rewrite andb_false_r; reflexivity |].
  destruct (mem p (matched s)) eqn:Em; [| reflexivity].
  apply mem_In, (iv_mrev s Hi) in Em. congruence.
Qed.

Lemma rev_in_all_pos (s : sim) (p : pos) (v : Z) :
  inv s -> rv_lookup (revealed s) p = Some v ->
  In p (all_pos s) /\ get_symbol (board s) p = Some v.
Proof. intros Hi E. apply (iv_rv s Hi), rv_lookup_In; auto. Qed.

Lemma play_turn_cases (s : sim) :
  inv s -> (length (matched s) < length (all_pos s))%nat ->
  (exists p q, known_loop s (get_unmatched_positions s) = Some (p, q) /\
     In p (all_pos s) /\ In q (all_pos s) /\ p <> q /\
     ~ In p (matched s) /\ ~ In q (matched s) /\
     is_rev (revealed s) p = true /\ is_rev (revealed s) q = true /\
     get_symbol (board s) p = get_symbol (board s) q /\
     play_turn s = with_flag true (make_move s p q true)) \/
  (exists p1 p2 rest, known_loop s (get_unmatched_positions s) = None /\
     unrevealed_of s (get_unmatched_positions s) = p1 :: p2 :: rest /\
     In p1 (all_pos s) /\ In p2 (all_pos s) /\ p1 <> p2 /\
     ~ In p1 (matched s) /\ ~ In p2 (matched s) /\
     is_rev (revealed s) p1 = false /\ is_rev (revealed s) p2 = false /\
     play_turn s = with_flag true (make_move s p1 p2 false)).
Proof.
  intros Hi Hlt. pose proof (iv_board s Hi) as Hb.
  assert (Hne : Z.eqb (Z.of_nat (length (matched s))) (total_cards s) = false).
  { rewrite (total_cards_inv s Hi). apply Z.eqb_neq. lia. }
  assert (Hunm : forall p, In p (get_unmatched_positions s) <-> In p (all_pos s) /\ ~ In p (matched s)).
  { intros p. unfold get_unmatched_positions. rewrite filter_In, negb_true_iff, mem_notIn. tauto. }
  destruct (known_loop s (get_unmatched_positions s)) as [[p q] |] eqn:Ek.
  - left. exists p, q.
    destruct (known_loop_some s _ p q Ek) as [Hp [Hqp [v [Ev Eq]]]].
    apply Hunm in Hp as [Hp Hpm].
    destruct (find_known_match_spec s v q Eq) as [Hq Hqm].
    destruct (iv_rv s Hi q v Hq) as [Hqa Hqs].
    destruct (rev_in_all_pos s p v Hi Ev) as [_ Hps].
    repeat split; auto.
    + unfold is_rev; rewrite Ev; reflexivity.
    + destruct (In_rv_lookup _ _ _ Hq) as [w Ew]. unfold is_rev; rewrite Ew; reflexivity.
    + congruence.
    + unfold play_turn. rewrite Hne. cbv zeta. rewrite Ek. reflexivity.
  - right.
    pose proof (unrevealed_of_eq s Hi) as Eu.
    assert (Hnd : NoDup (unrevealed_of s (get_unmatched_positions s))).
    { rewrite Eu. apply NoDup_filter, all_positions_NoDup. }
    assert (Hin : forall p, In p (unrevealed_of s (get_unmatched_positions s)) ->
                   In p (all_pos s) /\ ~ In p (matched s) /\ is_rev (revealed s) p = false).
    { intros p Hp. unfold unrevealed_of in Hp. apply filter_In in Hp as [Hp Hr].
      apply Hunm in Hp. apply negb_true_iff in Hr. tauto. }
    assert (Hlen : length (unrevealed_of s (get_unmatched_positions s)) = unrev_count s)
      by (rewrite Eu; reflexivity).
    pose proof (iv_even s Hi) as Hev.
    destruct (unrevealed_of s (get_unmatched_positions s)) as [| p1 [| p2 rest]] eqn:EU.
    + (* every cell is revealed, yet some cell is unmatched: a known pair exists *)
      exfalso.
      destruct (existsb (fun p => negb (mem p (matched s))) (all_pos s)) eqn:Ex.
      2: { assert (Hincl : incl (all_pos s) (matched s)).
           { intros p Hp. destruct (mem p (matched s)) eqn:Em; [apply mem_In; auto |].
             assert (existsb (fun p => negb (mem p (matched s))) (all_pos s) = true)
               by (apply existsb_exists; exists p; rewrite Em; auto). congruence. }
           pose proof (NoDup_incl_length (all_positions_NoDup _ _) Hincl). unfold all_pos in Hlt. lia. }
      apply existsb_exists in Ex as [p [Hp Hpm]]. apply negb_true_iff, mem_notIn in Hpm.
      assert (Hrev : forall x, In x (all_pos s) -> exists w, rv_lookup (revealed s) x = Some w).
      { intros x Hx. destruct (rv_lookup (revealed s) x) as [w |] eqn:Ew; eauto.
        assert (In x (filter (fun p => negb (is_rev (revealed s) p)) (all_pos s))).
        { apply filter_In; split; auto. unfold is_rev; rewrite Ew; reflexivity. }
        rewrite <- Eu in H. contradiction. }
      destruct (bo_partner s Hb p Hp) as [q [Hq [Hqp Hsym]]].
      assert (Hqm : ~ In q (matched s)).
      { intros Hq'. apply Hpm, (iv_mclosed s Hi q p); auto. }
      destruct (Hrev p Hp) as [v Ev], (Hrev q Hq) as [w Ew].
      destruct (rev_in_all_pos s p v Hi Ev) as [_ Hps], (rev_in_all_pos s q w Hi Ew) as [_ Hqs].
      assert (w = v) by congruence; subst w.
      destruct (find_known_match_some s v p (rv_lookup_In _ _ _ Ev) Hpm) as [y Ey].
      destruct (known_loop_none s _ p v Ek (proj2 (Hunm p) (conj Hp Hpm)) Ev) as [F | F];
        rewrite Ey in F; [discriminate |].
      destruct (known_loop_none s _ q v Ek (proj2 (Hunm q) (conj Hq Hqm)) Ew) as [G | G];
        rewrite Ey in G; [discriminate |].
      congruence.
    + exfalso. simpl in Hlen. rewrite <- Hlen in Hev. discriminate.
    + exists p1, p2, rest.
      destruct (Hin p1) as [H1 [H1m H1r]]; [left; reflexivity |].
      destruct (Hin p2) as [H2 [H2m H2r]]; [right; left; reflexivity |].
      inversion Hnd as [| ? ? Hn1 _]; subst.
      repeat split; auto.
      * intros ->. apply Hn1; left; reflexivity.
      * unfold play_turn. rewrite Hne. cbv zeta. rewrite Ek, EU. reflexivity.
Qed.

Lemma play_turn_step (s : sim) :
  inv s -> exists b s', play_turn s = Some (b, s') /\ inv s' /\
    ((b = false /\ s' = s /\ length (matched s) = length (all_pos s)) \/
     (b = true /\ (length (matched s) < length (all_pos s))%nat /\
      (measure s' + 2 <= measure s)%nat)).
Proof.
  intros Hi. pose proof (matched_le s Hi) as Hle. pose proof (iv_board s Hi) as Hb.
  destruct (Nat.eq_dec (length (matched s)) (length (all_pos s))) as [Heq | Hneq].
  - exists false, s. split; [apply play_turn_complete; auto |]. split; [auto | left; auto].
  - assert (Hlt : (length (matched s) < length (all_pos s))%nat) by lia.
    destruct (play_turn_cases s Hi Hlt)
      as [[p [q [_ [Hp [Hq [Hpq [Hpm [Hqm [Hpr [Hqr [Hsym Ept]]]]]]]]]]] |
          [p1 [p2 [rest [_ [_ [H1 [H2 [H12 [H1m [H2m [H1r [H2r Ept]]]]]]]]]]]]].
    + destruct (make_move_exists s p q true Hb Hp Hq) as [s' Hmv].
      destruct (make_move_inv s s' p q true Hi Hp Hq Hpq Hpm Hqm (or_introl (conj Hpr (conj Hqr Hsym))) Hmv)
        as [Hi' Hms].
      exists true, s'. rewrite Ept, Hmv. split; [reflexivity |]. split; [auto | right; auto].
    + destruct (make_move_exists s p1 p2 false Hb H1 H2) as [s' Hmv].
      destruct (make_move_inv s s' p1 p2 false Hi H1 H2 H12 H1m H2m (or_intror (conj H1r H2r)) Hmv)
        as [Hi' Hms].
      exists true, s'. rewrite Ept, Hmv. split; [reflexivity |]. split; [auto | right; auto].
Qed.

Lemma play_turn_inv (s s' : sim) (b : bool) :
  inv s -> play_turn s = Some (b, s') -> inv s'.
Proof.
  intros Hi E. destruct (play_turn_step s Hi) as [b' [s'' [E' [Hi' _]]]].
  rewrite E in E'. inversion E'; subst; auto.
Qed.

(** The states of a game: set up from non-negative dimensions with a
    [random.shuffle] outcome, then any number of [play_turn] calls. *)
Inductive reachable : sim -> Prop :=
  | reach_setup (r c : Z) (shuffle : list Z -> list Z) (s : sim) :
      0 <= r -> 0 <= c -> (forall l, Permutation l (shuffle l)) ->
      setup_board shuffle (new_sim r c) = Some s -> reachable s
  | reach_turn (s s' : sim) (b : bool) :
      reachable s -> play_turn s = Some (b, s') -> reachable s'.

Lemma pairs_of_length_odd (r c : Z) :
  0 <= r -> 0 <= c -> Z.odd (r * c) = true ->
  (length (pairs_of (new_sim r c)) < Z.to_nat r * Z.to_nat c)%nat /\
  (0 < Z.to_nat r)%nat /\ (0 < Z.to_nat c)%nat.
Proof.
  intros Hr Hc Ho. unfold pairs_of, new_sim; simpl.
  rewrite length_app, zrange_length.
  apply Z.odd_spec in Ho as [k Hk].
  assert (Hrc : 0 < r * c) by lia.
  assert (0 < r /\ 0 < c) as [Hr' Hc'] by (split; nia).
  assert (E : (r * c) / 2 = k) by (rewrite Hk; symmetry; apply Z.div_unique with 1; lia).
  rewrite E. rewrite <- Z2Nat.inj_mul by lia. lia.
Qed.

Lemma setup_board_odd (shuffle : list Z -> list Z) (r c : Z) :
  0 <= r -> 0 <= c -> Z.odd (r * c) = true -> (forall l, Permutation l (shuffle l)) ->
  setup_board shuffle (new_sim r c) = None.
Proof.
  intros Hr Hc Ho Hsh. destruct (pairs_of_length_odd r c Hr Hc Ho) as [Hl [HR HC]].
  unfold setup_board, setup_board_with; simpl.
  rewrite build_board_none; auto.
  rewrite <- (Permutation_length (Hsh _)). lia.
Qed.

Lemma reachable_inv (s : sim) : reachable s -> inv s.
Proof.
  induction 1 as [r c shuffle s Hr Hc Hsh E | s s' b _ IH E].
  - destruct (Z.even (r * c)) eqn:He.
    + destruct (inv_setup (shuffle (pairs_of (new_sim r c))) r c Hr Hc He (Hsh _))
        as [s0 [E0 [Hi _]]].
      unfold setup_board in E. rewrite E0 in E. inversion E; subst; auto.
    + rewrite setup_board_odd in E; auto; [discriminate |].
      rewrite <- Z.negb_even, He; reflexivity.
  - eapply play_turn_inv; eauto.
Qed.

(** * What a call of [play_turn] can change *)

(** Split conjunctions only (the records of invariants are left whole). *)
Ltac splits := repeat match goal with |- _ /\ _ => split end.

Lemma play_turn_shape (s s' : sim) (b : bool) :
  play_turn s = Some (b, s') -> s' = s \/ exists p1 p2 k, make_move s p1 p2 k = Some s'.
Proof.
  unfold play_turn, with_flag.
  destruct (Z.eqb _ _); [intros H; inversion H; auto |]. cbv zeta.
  destruct (known_loop s (get_unmatched_positions s)) as [[p q] |].
  - destruct (make_move s p q true) eqn:E; intros H; inversion H; subst; eauto.
  - destruct (unrevealed_of s (get_unmatched_positions s)) as [| p1 [| p2 rest]].
    + intros H; inversion H; auto.
    + destruct (filter _ _) as [| p2 ?]; [discriminate |].
      destruct (make_move s p1 p2 false) eqn:E; intros H; inversion H; subst; eauto.
    + destruct (make_move s p1 p2 false) eqn:E; intros H; inversion H; subst; eauto.
Qed.

Lemma play_turn_frame (s s' : sim) (b : bool) :
  play_turn s = Some (b, s') ->
  rows s' = rows s /\ cols s' = cols s /\ total_cards s' = total_cards s /\
  board s' = board s /\
  incl (matched s) (matched s') /\
  (length (matched s) <= length (matched s') <= length (matched s) + 2)%nat /\
  (forall p, is_rev (revealed s) p = true -> is_rev (revealed s') p = true).
Proof.
  intros E. destruct (play_turn_shape s s' b E) as [-> | [p1 [p2 [k Hmv]]]].
  - splits; auto using incl_refl; lia.
  - destruct (make_move_fields s s' p1 p2 k Hmv)
      as [v1 [v2 [_ [_ [Er [Ec [Et [Eb [Erv Hres]]]]]]]]].
    assert (Hr : forall p, is_rev (revealed s) p = true -> is_rev (revealed s') p = true).
    { intros p Hp. rewrite Erv, is_rev_set2, Hp, !orb_true_r. reflexivity. }
    destruct Hres as [[_ [Em _]] | [_ [Em _]]]; rewrite Em.
    + splits; auto.
      * intros q Hq. apply set_add_In; right; apply set_add_In; auto.
      * pose proof (set_add_length_ge p1 (matched s)).
        pose proof (set_add_length_ge p2 (set_add p1 (matched s))). lia.
      * pose proof (set_add_length_le p1 (matched s)).
        pose proof (set_add_length_le p2 (set_add p1 (matched s))). lia.
    + splits; auto using incl_refl; lia.
Qed.

Lemma game_loop_frame (fuel : nat) (tc : Z) (s s' : sim) :
  game_loop fuel tc s = Some s' -> board s' = board s.
Proof.
  revert tc s; induction fuel as [| f IH]; intros tc s; simpl; [congruence |].
  destruct (play_turn s) as [[b s1] |] eqn:E; [| discriminate].
  destruct (play_turn_frame s s1 b E) as [_ [_ [_ [Eb _]]]].
  destruct b; [| intros H; inversion H; subst; auto].
  destruct (Z.gtb (tc + 1) 1000); [intros H; inversion H; subst; auto |].
  intros H. rewrite (IH _ _ H); auto.
Qed.

Lemma play_turns_complete (fuel : nat) (s : sim) :
  inv s -> (measure s < 2 * fuel)%nat ->
  exists T sf, play_turns fuel s = Some (T, sf) /\ (2 * T <= measure s)%nat /\ inv sf /\
    all_pos sf = all_pos s /\ total_cards sf = total_cards s /\
    length (matched sf) = length (all_pos sf) /\ play_turn sf = Some (false, sf).
Proof.
  revert s; induction fuel as [| f IH]; intros s Hi Hm; [lia |].
  destruct (play_turn_step s Hi) as [b [s' [E [Hi' [[-> [-> Hc]] | [-> [_ Hms]]]]]]].
  - exists O, s. simpl. rewrite E. splits; auto; lia.
  - destruct (play_turn_frame s s' true E) as [Er [Ec [Et _]]].
    destruct (IH s' Hi') as [T [sf [E' [HT [Hif [Eap [Etf [Hc Hf]]]]]]]]; [lia |].
    exists (S T), sf. simpl. rewrite E, E'.
    splits; auto; [lia | rewrite Eap; apply all_pos_same; auto | congruence].
Qed.

Lemma game_loop_play_turns (f fuel : nat) (tc : Z) (s sf : sim) (T : nat) :
  play_turns f s = Some (T, sf) -> 0 <= tc -> tc + Z.of_nat T <= 1000 -> (T < fuel)%nat ->
  game_loop fuel tc s = Some sf.
Proof.
  revert fuel tc s T; induction f as [| f IH]; intros fuel tc s T E Htc HT Hf; [discriminate |].
  simpl in E. destruct fuel as [| fuel]; [lia |]. simpl.
  destruct (play_turn s) as [[[|] s'] |]; [| inversion E; subst; reflexivity | discriminate].
  destruct (play_turns f s') as [[T' sf'] |] eqn:E'; [| discriminate].
  inversion E; subst.
  destruct (Z.gtb_spec (tc + 1) 1000); [lia |].
  apply (IH _ _ _ T'); auto; lia.
Qed.

Lemma game_loop_bound (fuel : nat) (tc : Z) (s : sim) :
  inv s -> exists sf, game_loop fuel tc s = Some sf /\ inv sf /\
    all_pos sf = all_pos s /\ total_cards sf = total_cards s /\
    (length (matched sf) <= length (matched s) + 2 * fuel)%nat.
Proof.
  revert tc s; induction fuel as [| f IH]; intros tc s Hi.
  - exists s; simpl; splits; auto; lia.
  - destruct (play_turn_step s Hi) as [b [s' [E [Hi' _]]]].
    destruct (play_turn_frame s s' b E) as [Er [Ec [Et [_ [_ [Hl _]]]]]].
    pose proof (all_pos_same s s' Er Ec) as Eap.
    simpl. rewrite E. destruct b.
    + destruct (Z.gtb (tc + 1) 1000).
      * exists s'; splits; auto; lia.
      * destruct (IH (tc + 1) s' Hi') as [sf [E' [Hf [Eap' [Et' Hl']]]]].
        exists sf; splits; auto; [congruence | congruence | lia].
    + exists s'; splits; auto; lia.
Qed.

(** * Concrete games used by the witnesses *)

Lemma idshuffle_perm (l : list Z) : Permutation l (idshuffle l).
Proof. apply Permutation_refl. Qed.

Definition run_setup (shuffle : list Z -> list Z) (r c : Z) : sim :=
  match setup_board shuffle (new_sim r c) with Some s => s | None => new_sim r c end.

Definition next_state (s : sim) : sim :=
  match play_turn s with Some (_, s') => s' | None => s end.

(** [[0, 1], [0, 1]]: two misses, then two known matches. *)
Definition g22_0 : sim := run_setup idshuffle 2 2.
Definition g22_1 : sim := next_state g22_0.
Definition g22_2 : sim := next_state g22_1.

Lemma g22_0_reachable : reachable g22_0.
Proof. apply (reach_setup 2 2 idshuffle); [lia | lia | apply idshuffle_perm | reflexivity]. Qed.

Lemma g22_1_reachable : reachable g22_1.
Proof. apply (reach_turn g22_0 g22_1 true); [apply g22_0_reachable | vm_compute; reflexivity]. Qed.

Lemma g22_2_reachable : reachable g22_2.
Proof. apply (reach_turn g22_1 g22_2 true); [apply g22_1_reachable | vm_compute; reflexivity]. Qed.

(** * Claims *)

(** C1: for non-negative [rows], [cols] with [rows*cols] even and positive,
    [setup_board] yields a [rows]-by-[cols] grid whose row-major reading is
    the shuffled sequence [[0..pairs-1] ++ [0..pairs-1]]; each symbol of
    [0..pairs-1] occurs exactly twice and no other symbol occurs; [play_turn]
    and [play_game] never change the board. *)
Theorem setup_board_layout (shuffle : list Z -> list Z) (r c : Z) :
  (forall l, Permutation l (shuffle l)) -> 0 <= r -> 0 <= c -> 0 < r * c ->
  Z.even (r * c) = true ->
  exists s, setup_board shuffle (new_sim r c) = Some s /\
    Z.of_nat (length (board s)) = r /\
    Forall (fun row => Z.of_nat (length row) = c) (board s) /\
    concat (board s) = shuffle (pairs_of (new_sim r c)) /\
    Permutation (zrange ((r * c) / 2) ++ zrange ((r * c) / 2)) (concat (board s)) /\
    (forall v, 0 <= v < (r * c) / 2 -> count_occ Z.eq_dec (concat (board s)) v = 2%nat) /\
    (forall v, In v (concat (board s)) -> 0 <= v < (r * c) / 2) /\
    (forall s1 s2 b, play_turn s1 = Some (b, s2) -> board s2 = board s1) /\
    (forall sf, play_game shuffle (new_sim r c) = Some sf -> board sf = board s).
Proof.
  intros Hsh Hr Hc Hpos He.
  set (l := shuffle (pairs_of (new_sim r c))).
  assert (Hp : Permutation (pairs_of (new_sim r c)) l) by apply Hsh.
  assert (Hlen : length l = (Z.to_nat r * Z.to_nat c)%nat).
  { rewrite <- (Permutation_length Hp). apply pairs_of_length; auto. }
  destruct (setup_board_with_ok l r c Hr Hc He Hp) as [E _].
  exists (with_board (new_sim r c) (grid_of l 0 (Z.to_nat r) (Z.to_nat c))).
  assert (Hcat : concat (grid_of l 0 (Z.to_nat r) (Z.to_nat c)) = l).
  { rewrite grid_of_concat; simpl. apply firstn_all2. lia. }
  simpl. splits.
  - exact E.
  - rewrite grid_of_length. lia.
  - apply Forall_forall. intros row Hrow.
    pose proof (proj1 (Forall_forall _ _) (grid_of_rows l 0 (Z.to_nat r) (Z.to_nat c) ltac:(lia)) row Hrow).
    simpl in H. lia.
  - exact Hcat.
  - rewrite Hcat. exact Hp.
  - intros v Hv. rewrite Hcat, <- (proj1 (Permutation_count_occ Z.eq_dec _ _) Hp).
    apply pairs_count; auto.
  - intros v Hv. rewrite Hcat in Hv.
    apply (Permutation_in v (Permutation_sym Hp)) in Hv.
    apply in_app_or in Hv as [Hv | Hv]; apply zrange_In in Hv; exact Hv.
  - intros s1 s2 b E'. apply (play_turn_frame s1 s2 b E').
  - intros sf Ef. unfold play_game, setup_board in Ef. fold l in Ef. rewrite E in Ef.
    apply game_loop_frame in Ef. exact Ef.
Qed.

Lemma setup_board_layout_witness :
  (forall l, Permutation l (idshuffle l)) /\ 0 <= 2 /\ 0 <= 2 /\ 0 < 2 * 2 /\
  Z.even (2 * 2) = true /\
  exists s, setup_board idshuffle (new_sim 2 2) = Some s /\
    Z.of_nat (length (board s)) = 2 /\
    Forall (fun row => Z.of_nat (length row) = 2) (board s) /\
    concat (board s) = idshuffle (pairs_of (new_sim 2 2)) /\
    Permutation (zrange ((2 * 2) / 2) ++ zrange ((2 * 2) / 2)) (concat (board s)) /\
    (forall v, 0 <= v < (2 * 2) / 2 -> count_occ Z.eq_dec (concat (board s)) v = 2%nat) /\
    (forall v, In v (concat (board s)) -> 0 <= v < (2 * 2) / 2) /\
    (forall s1 s2 b, play_turn s1 = Some (b, s2) -> board s2 = board s1) /\
    (forall sf, play_game idshuffle (new_sim 2 2) = Some sf -> board sf = board s).
Proof.
  split; [exact idshuffle_perm |]. split; [lia |]. split; [lia |]. split; [lia |].
  split; [reflexivity |].
  apply (setup_board_layout idshuffle 2 2 idshuffle_perm); [lia | lia | lia | reflexivity].
Defined.

(** C9: with non-negative dimensions, an odd [rows*cols] makes
    [setup_board] raise ([IndexError] at the last cell), so [play_game]
    raises before its first turn; an even [rows*cols] never raises there. *)
Theorem odd_board_fails_fast (shuffle : list Z -> list Z) (r c : Z) :
  (forall l, Permutation l (shuffle l)) -> 0 <= r -> 0 <= c ->
  (Z.odd (r * c) = true ->
     setup_board shuffle (new_sim r c) = None /\ play_game shuffle (new_sim r c) = None) /\
  (Z.even (r * c) = true -> exists s, setup_board shuffle (new_sim r c) = Some s).
Proof.
  intros Hsh Hr Hc. split.
  - intros Ho. assert (E : setup_board shuffle (new_sim r c) = None)
      by (apply setup_board_odd; auto).
    split; [exact E |]. unfold play_game; rewrite E; reflexivity.
  - intros He. destruct (inv_setup (shuffle (pairs_of (new_sim r c))) r c Hr Hc He (Hsh _))
      as [s [E _]]. exists s; exact E.
Qed.

Lemma odd_board_fails_fast_witness :
  (forall l, Permutation l (idshuffle l)) /\ 0 <= 3 /\ 0 <= 3 /\
  ((Z.odd (3 * 3) = true ->
     setup_board idshuffle (new_sim 3 3) = None /\ play_game idshuffle (new_sim 3 3) = None) /\
   (Z.even (3 * 3) = true -> exists s, setup_board idshuffle (new_sim 3 3) = Some s)).
Proof.
  split; [exact idshuffle_perm |]. split; [lia |]. split; [lia |].
  apply (odd_board_fails_fast idshuffle 3 3 idshuffle_perm); lia.
Defined.

(** C8: in every reachable state [moves = exploratory_moves]; both start at
    0 and [make_move] increments them together. *)
Theorem moves_eq_exploratory (s : sim) :
  reachable s -> moves s = exploratory_moves s.
Proof. intros H. apply (iv_moves s (reachable_inv s H)). Qed.

Lemma moves_eq_exploratory_witness :
  reachable g22_2 /\ moves g22_2 = exploratory_moves g22_2.
Proof. split; [apply g22_2_reachable | apply moves_eq_exploratory, g22_2_reachable]. Defined.

(** C7: in every reachable state [|matched| <= total_cards], [|matched|] is
    even and every matched cell is a key of [revealed]; a turn only adds to
    [matched]. *)
Theorem matched_invariants (s : sim) :
  reachable s ->
  Z.of_nat (length (matched s)) <= total_cards s /\
  Nat.even (length (matched s)) = true /\
  (forall p, In p (matched s) -> is_rev (revealed s) p = true) /\
  (forall b s', play_turn s = Some (b, s') ->
     incl (matched s) (matched s') /\ (length (matched s) <= length (matched s'))%nat).
Proof.
  intros H. pose proof (reachable_inv s H) as Hi. splits.
  - rewrite (total_cards_inv s Hi). pose proof (matched_le s Hi). lia.
  - apply (iv_meven s Hi).
  - apply (iv_mrev s Hi).
  - intros b s' E. destruct (play_turn_frame s s' b E) as [_ [_ [_ [_ [Hincl [Hl _]]]]]].
    split; [exact Hincl | lia].
Qed.

Lemma matched_invariants_witness :
  reachable g22_2 /\
  Z.of_nat (length (matched g22_2)) <= total_cards g22_2 /\
  Nat.even (length (matched g22_2)) = true /\
  (forall p, In p (matched g22_2) -> is_rev (revealed g22_2) p = true) /\
  (forall b s', play_turn g22_2 = Some (b, s') ->
     incl (matched g22_2) (matched s') /\ (length (matched g22_2) <= length (matched s'))%nat).
Proof. split; [apply g22_2_reachable | apply matched_invariants, g22_2_reachable]. Defined.

(** C6: over a turn, every recorded [revealed] entry stays with the same
    symbol (re-revealing a cell records the same symbol again), and every
    recorded symbol is the board's symbol at that cell. *)
Theorem revealed_monotone (s s' : sim) (b : bool) :
  reachable s -> play_turn s = Some (b, s') ->
  (forall p v, rv_lookup (revealed s) p = Some v -> rv_lookup (revealed s') p = Some v) /\
  (forall p v, rv_lookup (revealed s') p = Some v -> get_symbol (board s') p = Some v).
Proof.
  intros H E. pose proof (reachable_inv s H) as Hi.
  pose proof (play_turn_inv s s' b Hi E) as Hi'.
  split; [| intros p v Ev; apply (rev_in_all_pos s' p v Hi' Ev)].
  intros p v Ev. destruct (play_turn_shape s s' b E) as [-> | [p1 [p2 [k Hmv]]]]; [exact Ev |].
  destruct (make_move_fields s s' p1 p2 k Hmv) as [v1 [v2 [E1 [E2 [_ [_ [_ [_ [Erv _]]]]]]]]].
  destruct (rev_in_all_pos s p v Hi Ev) as [_ Ep].
  rewrite Erv, !rv_lookup_set.
  destruct (pos_eqb p p2) eqn:Q2; [apply pos_eqb_eq in Q2; subst; congruence |].
  destruct (pos_eqb p p1) eqn:Q1; [apply pos_eqb_eq in Q1; subst; congruence |].
  exact Ev.
Qed.

Lemma revealed_monotone_witness :
  reachable g22_1 /\ play_turn g22_1 = Some (true, g22_2) /\
  (forall p v, rv_lookup (revealed g22_1) p = Some v -> rv_lookup (revealed g22_2) p = Some v) /\
  (forall p v, rv_lookup (revealed g22_2) p = Some v -> get_symbol (board g22_2) p = Some v).
Proof.
  assert (E : play_turn g22_1 = Some (true, g22_2)) by (vm_compute; reflexivity).
  split; [apply g22_1_reachable |]. split; [exact E |].
  apply (revealed_monotone g22_1 g22_2 true g22_1_reachable E).
Defined.

(** C2: when [play_turn] takes the known-match step, the two cells hold the
    same symbol, so the turn matches both cells, adds one perfect match and
    does not count a wrong move. *)
Theorem known_match_is_match (s : sim) (p q : pos) :
  reachable s ->
  Z.of_nat (length (matched s)) <> total_cards s ->
  known_loop s (get_unmatched_positions s) = Some (p, q) ->
  exists v s', get_symbol (board s) p = Some v /\ get_symbol (board s) q = Some v /\
    play_turn s = Some (true, s') /\ make_move s p q true = Some s' /\
    matched s' = set_add q (set_add p (matched s)) /\
    In p (matched s') /\ In q (matched s') /\
    perfect_matches s' = perfect_matches s + 1 /\ moves s' = moves s.
Proof.
  intros H Hnc Ek. pose proof (reachable_inv s H) as Hi. pose proof (iv_board s Hi) as Hb.
  assert (Hlt : (length (matched s) < length (all_pos s))%nat).
  { pose proof (matched_le s Hi). rewrite (total_cards_inv s Hi) in Hnc.
    destruct (Nat.eq_dec (length (matched s)) (length (all_pos s))); [congruence | lia]. }
  destruct (play_turn_cases s Hi Hlt)
    as [[p' [q' [Ek' [Hp [Hq [_ [_ [_ [_ [_ [Hsym Ept]]]]]]]]]]] | [? [? [? [Ek' _]]]]];
    rewrite Ek in Ek'; [| discriminate].
  inversion Ek'; subst p' q'.
  destruct (make_move_exists s p q true Hb Hp Hq) as [s' Hmv].
  destruct (make_move_fields s s' p q true Hmv)
    as [v1 [v2 [E1 [E2 [_ [_ [_ [_ [_ Hres]]]]]]]]].
  destruct Hres as [[Hv [Em [Emv [_ Epf]]]] | [Hv _]]; [| congruence].
  subst v2. exists v1, s'. rewrite Ept, Hmv. splits; auto.
  - rewrite Em; apply set_add_In; right; apply set_add_In; left; reflexivity.
  - rewrite Em; apply set_add_In; left; reflexivity.
Qed.

Lemma known_match_is_match_witness :
  reachable g22_2 /\
  Z.of_nat (length (matched g22_2)) <> total_cards g22_2 /\
  known_loop g22_2 (get_unmatched_positions g22_2) = Some ((1%nat, 0%nat), (0%nat, 0%nat)) /\
  exists v s', get_symbol (board g22_2) (1%nat, 0%nat) = Some v /\
    get_symbol (board g22_2) (0%nat, 0%nat) = Some v /\
    play_turn g22_2 = Some (true, s') /\ make_move g22_2 (1%nat, 0%nat) (0%nat, 0%nat) true = Some s' /\
    matched s' = set_add (0%nat, 0%nat) (set_add (1%nat, 0%nat) (matched g22_2)) /\
    In (1%nat, 0%nat) (matched s') /\ In (0%nat, 0%nat) (matched s') /\
    perfect_matches s' = perfect_matches g22_2 + 1 /\ moves s' = moves g22_2.
Proof.
  assert (Hn : Z.of_nat (length (matched g22_2)) <> total_cards g22_2)
    by (vm_compute; discriminate).
  assert (Ek : known_loop g22_2 (get_unmatched_positions g22_2) = Some ((1%nat, 0%nat), (0%nat, 0%nat)))
    by (vm_compute; reflexivity).
  split; [apply g22_2_reachable |]. split; [exact Hn |]. split; [exact Ek |].
  apply (known_match_is_match g22_2 _ _ g22_2_reachable Hn Ek).
Defined.

(** C10: in every reachable state the number of cells neither matched nor
    revealed is even, so the branch of [play_turn] for exactly one such cell
    never runs, and a turn that counts a wrong move flips two cells never
    revealed before. *)
Theorem unrevealed_even (s : sim) :
  reachable s ->
  Nat.even (length (unrevealed_of s (get_unmatched_positions s))) = true /\
  length (unrevealed_of s (get_unmatched_positions s)) <> 1%nat /\
  (forall s', play_turn s = Some (true, s') -> moves s' = moves s + 1 ->
     exists p1 p2, p1 <> p2 /\
       is_rev (revealed s) p1 = false /\ is_rev (revealed s) p2 = false /\
       is_rev (revealed s') p1 = true /\ is_rev (revealed s') p2 = true).
Proof.
  intros H. pose proof (reachable_inv s H) as Hi.
  assert (Hev : Nat.even (length (unrevealed_of s (get_unmatched_positions s))) = true).
  { rewrite unrevealed_of_eq by exact Hi. apply (iv_even s Hi). }
  split; [exact Hev |]. split; [intros E; rewrite E in Hev; discriminate |].
  intros s' E Hmv.
  pose proof (matched_le s Hi) as Hle.
  destruct (Nat.eq_dec (length (matched s)) (length (all_pos s))) as [Hc | Hnc].
  { rewrite (play_turn_complete s Hi Hc) in E. discriminate. }
  destruct (play_turn_cases s Hi ltac:(lia))
    as [[p [q [_ [_ [_ [_ [_ [_ [_ [_ [Hsym Ept]]]]]]]]]]] |
        [p1 [p2 [rest [_ [_ [_ [_ [H12 [_ [_ [H1r [H2r Ept]]]]]]]]]]]]];
    rewrite Ept in E; unfold with_flag in E.
  - destruct (make_move s p q true) as [s'' |] eqn:Hm; [| discriminate].
    inversion E; subst s''.
    destruct (make_move_fields s s' p q true Hm) as [v1 [v2 [E1 [E2 [_ [_ [_ [_ [_ Hres]]]]]]]]].
    destruct Hres as [[_ [_ [Emv _]]] | [Hv _]]; [lia | congruence].
  - destruct (make_move s p1 p2 false) as [s'' |] eqn:Hm; [| discriminate].
    inversion E; subst s''.
    destruct (make_move_fields s s' p1 p2 false Hm) as [v1 [v2 [_ [_ [_ [_ [_ [_ [Erv _]]]]]]]]].
    exists p1, p2. splits; auto; rewrite Erv, is_rev_set2, pos_eqb_refl, ?orb_true_r; reflexivity.
Qed.

Lemma unrevealed_even_witness :
  reachable g22_1 /\
  Nat.even (length (unrevealed_of g22_1 (get_unmatched_positions g22_1))) = true /\
  length (unrevealed_of g22_1 (get_unmatched_positions g22_1)) <> 1%nat /\
  (forall s', play_turn g22_1 = Some (true, s') -> moves s' = moves g22_1 + 1 ->
     exists p1 p2, p1 <> p2 /\
       is_rev (revealed g22_1) p1 = false /\ is_rev (revealed g22_1) p2 = false /\
       is_rev (revealed s') p1 = true /\ is_rev (revealed s') p2 = true).
Proof. split; [apply g22_1_reachable | apply unrevealed_even, g22_1_reachable]. Defined.

(** C3 (amended): with non-negative dimensions and an even [rows*cols],
    repeated [play_turn] calls from the fresh game complete it (every cell
    matched, [play_turn] answers [False]) within [total_cards] turns;
    throughout the game, i.e. in the state after any number of [play_turn]
    calls, [moves >= 0] and [perfect_matches >= 0]; when
    [total_cards <= 1000] the cap of [play_game] is never hit and
    [play_game] ends in that state, while when [total_cards > 2002] every
    game is cut off by the cap: [play_game] returns a state with unmatched
    cells in which [play_turn] would still play. *)
Theorem game_completes_within_total_cards (shuffle : list Z -> list Z) (r c : Z) :
  (forall l, Permutation l (shuffle l)) -> 0 <= r -> 0 <= c -> Z.even (r * c) = true ->
  exists s0 T sf, setup_board shuffle (new_sim r c) = Some s0 /\
    play_turns (S (Z.to_nat (r * c))) s0 = Some (T, sf) /\ Z.of_nat T <= r * c /\
    (forall p, In p (all_pos sf) -> In p (matched sf)) /\
    Z.of_nat (length (matched sf)) = total_cards sf /\
    play_turn sf = Some (false, sf) /\
    (forall k, exists sk, run_n k s0 = Some sk /\
       0 <= moves sk /\ 0 <= perfect_matches sk) /\
    0 <= moves sf /\ 0 <= perfect_matches sf /\
    (r * c <= 1000 -> play_game shuffle (new_sim r c) = Some sf) /\
    (2002 < r * c -> exists sc s', play_game shuffle (new_sim r c) = Some sc /\
       Z.of_nat (length (matched sc)) < total_cards sc /\
       play_turn sc = Some (true, s')).
Proof.
  intros Hsh Hr Hc He.
  destruct (inv_setup (shuffle (pairs_of (new_sim r c))) r c Hr Hc He (Hsh _))
    as [s0 [E0 [Hi0 [Hm0 [Hmt0 Et0]]]]].
  assert (HN : Z.to_nat (r * c) = (Z.to_nat r * Z.to_nat c)%nat) by (apply Z2Nat.inj_mul; lia).
  destruct (play_turns_complete (S (Z.to_nat (r * c))) s0 Hi0 ltac:(lia))
    as [T [sf [Ep [HT [Hif [Eap [Etf [Hc' Hf]]]]]]]].
  assert (HR0 : reachable s0)
    by (apply (reach_setup r c shuffle s0 Hr Hc Hsh); unfold setup_board; exact E0).
  exists s0, T, sf. splits.
  - exact E0.
  - exact Ep.
  - assert (T <= Z.to_nat (r * c))%nat by lia. lia.
  - intros p Hp. apply (NoDup_length_incl (l' := all_pos sf) (iv_mnodup sf Hif)); [lia | | exact Hp].
    intros q Hq. pose proof (iv_mrev sf Hif q Hq) as Eq. unfold is_rev in Eq.
    destruct (rv_lookup (revealed sf) q) as [w |] eqn:Ew; [| discriminate].
    apply (rev_in_all_pos sf q w Hif Ew).
  - rewrite (total_cards_inv sf Hif). congruence.
  - exact Hf.
  - intros k. clear -HR0. revert s0 HR0. induction k as [| k IH]; intros s HR.
    + exists s. pose proof (reachable_inv s HR) as Hi.
      split; [reflexivity |]. split; [apply (iv_moves_nonneg s Hi) | apply (iv_perfect_nonneg s Hi)].
    + destruct (play_turn_step s (reachable_inv s HR)) as [b [s' [Ept _]]].
      simpl. rewrite Ept. apply IH. exact (reach_turn s s' b HR Ept).
  - apply (iv_moves_nonneg sf Hif).
  - apply (iv_perfect_nonneg sf Hif).
  - intros Hsmall. unfold play_game, setup_board. rewrite E0.
    apply (game_loop_play_turns _ _ _ _ _ T Ep); lia.
  - intros Hbig.
    destruct (game_loop_bound 1001 0 s0 Hi0) as [sc [Eg [Hic [Eapc [Etc Hl]]]]].
    rewrite Hmt0 in Hl. simpl length in Hl.
    assert (Hap : Z.of_nat (length (all_pos sc)) = r * c).
    { rewrite Eapc, <- (total_cards_inv s0 Hi0), Et0. reflexivity. }
    destruct (play_turn_step sc Hic) as [b [s' [Ept [_ [[_ [_ Hcl]] | [-> _]]]]]]; [lia |].
    exists sc, s'. splits.
    + unfold play_game, setup_board. rewrite E0. exact Eg.
    + rewrite Etc, Et0. lia.
    + exact Ept.
Qed.

Lemma game_completes_within_total_cards_witness :
  (forall l, Permutation l (idshuffle l)) /\ 0 <= 4 /\ 0 <= 4 /\ Z.even (4 * 4) = true /\
  exists s0 T sf, setup_board idshuffle (new_sim 4 4) = Some s0 /\
    play_turns (S (Z.to_nat (4 * 4))) s0 = Some (T, sf) /\ Z.of_nat T <= 4 * 4 /\
    (forall p, In p (all_pos sf) -> In p (matched sf)) /\
    Z.of_nat (length (matched sf)) = total_cards sf /\
    play_turn sf = Some (false, sf) /\
    (forall k, exists sk, run_n k s0 = Some sk /\
       0 <= moves sk /\ 0 <= perfect_matches sk) /\
    0 <= moves sf /\ 0 <= perfect_matches sf /\
    (4 * 4 <= 1000 -> play_game idshuffle (new_sim 4 4) = Some sf) /\
    (2002 < 4 * 4 -> exists sc s', play_game idshuffle (new_sim 4 4) = Some sc /\
       Z.of_nat (length (matched sc)) < total_cards sc /\
       play_turn sc = Some (true, s')).
Proof.
  split; [exact idshuffle_perm |]. split; [lia |]. split; [lia |]. split; [reflexivity |].
  apply (game_completes_within_total_cards idshuffle 4 4 idshuffle_perm); [lia | lia | reflexivity].
Defined.

(** C3 refuted: on a 2x1002 board (2004 cards) at most two cards are matched
    per turn, so after the 1001 turns allowed by the cap [play_game] stops
    with the game unfinished: the cap is reached. *)
Lemma cap_reached_2x1002 :
  exists sf s', play_game idshuffle (new_sim 2 1002) = Some sf /\
    total_cards sf = 2004 /\ (length (matched sf) < 2004)%nat /\
    play_turn sf = Some (true, s').
Proof.
  destruct (inv_setup (idshuffle (pairs_of (new_sim 2 1002))) 2 1002 ltac:(lia) ltac:(lia)
              eq_refl (idshuffle_perm _)) as [s0 [E0 [Hi0 [_ [Hm0 Et0]]]]].
  destruct (game_loop_bound 1001 0 s0 Hi0) as [sf [Eg [Hif [Eap [Etf Hl]]]]].
  rewrite Hm0 in Hl. simpl length in Hl.
  assert (Hap : length (all_pos sf) = 2004%nat).
  { rewrite Eap. rewrite <- (Nat2Z.id (length (all_pos s0))), <- (total_cards_inv s0 Hi0), Et0.
    reflexivity. }
  destruct (play_turn_step sf Hif) as [b [s' [Ept [_ [[_ [_ Hc]] | [-> _]]]]]]; [lia |].
  exists sf, s'. splits.
  - unfold play_game, setup_board. rewrite E0. exact Eg.
  - rewrite Etf, Et0. reflexivity.
  - lia.
  - exact Ept.
Qed.

(** C4 (code defect): a lucky match increments neither [moves] nor
    [perfect_matches], so the printed "Total turns taken"
    [moves + perfect_matches] undercounts.  With the shuffle outcome
    [[0, 0, 1, 1]] on a 2x2 board the game takes two turns, both lucky
    matches, and [moves + perfect_matches = 0]. *)
Theorem lucky_turns_uncounted :
  Permutation (pairs_of (new_sim 2 2)) [0; 0; 1; 1] /\
  exists s0 sf, setup_board_with [0; 0; 1; 1] (new_sim 2 2) = Some s0 /\
    play_turns 5 s0 = Some (2%nat, sf) /\ game_loop 1001 0 s0 = Some sf /\
    Z.of_nat (length (matched sf)) = total_cards sf /\
    moves sf + perfect_matches sf = 0.
Proof.
  split.
  - vm_compute. apply perm_skip, perm_swap.
  - eexists; eexists. split; [reflexivity |]. split; [vm_compute; reflexivity |].
    split; [vm_compute; reflexivity |]. split; vm_compute; reflexivity.
Qed.

(** C5 refuted: the unshuffled order [[0, 1], [0, 1]] is a possible outcome of
    [random.shuffle]; the first two cells differ, and so do the next two,
    so [play_game] returns [moves = 2]. *)
Lemma game_2x2_two_wrong_moves :
  (forall l, Permutation l (idshuffle l)) /\
  play_game_result idshuffle (new_sim 2 2) = Some 2.
Proof. split; [exact idshuffle_perm | vm_compute; reflexivity]. Qed.

(** The outcome checked on each 2x2 layout: complete, and either two turns
    with no wrong move or four turns with two. *)
Definition check22 (l : list Z) : bool :=
  match setup_board_with l (new_sim 2 2) with
  | None => false
  | Some s0 =>
      match play_turns 5 s0 with
      | None => false
      | Some (T, sf) =>
          Nat.eqb (length (matched sf)) 4 &&
          ((Nat.eqb T 2 && Z.eqb (moves sf) 0) || (Nat.eqb T 4 && Z.eqb (moves sf) 2))
      end
  end.

Lemma check22_sound (l : list Z) :
  check22 l = true ->
  exists s0 T sf, setup_board_with l (new_sim 2 2) = Some s0 /\
    play_turns 5 s0 = Some (T, sf) /\ game_loop 1001 0 s0 = Some sf /\
    length (matched sf) = 4%nat /\
    ((T = 2%nat /\ moves sf = 0) \/ (T = 4%nat /\ moves sf = 2)).
Proof.
  unfold check22.
  destruct (setup_board_with l (new_sim 2 2)) as [s0 |]; [| discriminate].
  destruct (play_turns 5 s0) as [[T sf] |] eqn:Ep; [| discriminate].
  intros H. apply andb_true_iff in H as [Hl H].
  apply Nat.eqb_eq in Hl.
  assert (HT : (T = 2%nat /\ moves sf = 0) \/ (T = 4%nat /\ moves sf = 2)).
  { apply orb_true_iff in H as [H | H]; apply andb_true_iff in H as [H1 H2];
      apply Nat.eqb_eq in H1; apply Z.eqb_eq in H2; auto. }
  exists s0, T, sf. splits; auto.
  apply (game_loop_play_turns _ _ _ _ _ T Ep); [lia | | ]; destruct HT as [[-> _] | [-> _]]; lia.
Qed.

Lemma perm_0101_cases (l : list Z) :
  Permutation [0; 1; 0; 1] l ->
  l = [0; 0; 1; 1] \/ l = [0; 1; 0; 1] \/ l = [0; 1; 1; 0] \/
  l = [1; 0; 0; 1] \/ l = [1; 0; 1; 0] \/ l = [1; 1; 0; 0].
Proof.
  intros Hp.
  assert (Hin : forall x, In x l -> x = 0 \/ x = 1).
  { intros x Hx. apply (Permutation_in x (Permutation_sym Hp)) in Hx. simpl in Hx.
    destruct Hx as [<- | [<- | [<- | [<- | []]]]]; auto. }
  assert (Hc0 : count_occ Z.eq_dec l 0 = 2%nat).
  { rewrite <- (proj1 (Permutation_count_occ Z.eq_dec _ _) Hp). reflexivity. }
  pose proof (Permutation_length Hp) as Hlen.
  destruct l as [| a [| b [| c [| d [| ? ?]]]]]; simpl in Hlen; try discriminate.
  destruct (Hin a ltac:(simpl; tauto)) as [-> | ->];
  destruct (Hin b ltac:(simpl; tauto)) as [-> | ->];
  destruct (Hin c ltac:(simpl; tauto)) as [-> | ->];
  destruct (Hin d ltac:(simpl; tauto)) as [-> | ->];
  simpl in Hc0; try discriminate; tauto.
Qed.

(** C5 (amended): for every shuffle of a 2x2 board, [play_game] completes the
    game (the cap is not involved) in at most 4 turns; it ends with
    [moves = 0] after 2 turns, or with [moves = 2] after 4 turns. *)
Theorem game_2x2_outcomes (shuffle : list Z -> list Z) :
  (forall l, Permutation l (shuffle l)) ->
  exists s0 T sf, setup_board shuffle (new_sim 2 2) = Some s0 /\
    play_turns 5 s0 = Some (T, sf) /\ play_game shuffle (new_sim 2 2) = Some sf /\
    length (matched sf) = 4%nat /\ (T <= 4)%nat /\
    ((T = 2%nat /\ moves sf = 0) \/ (T = 4%nat /\ moves sf = 2)).
Proof.
  intros Hsh. unfold play_game, setup_board.
  generalize (Hsh (pairs_of (new_sim 2 2))).
  generalize (shuffle (pairs_of (new_sim 2 2))). intros l Hl.
  assert (Hck : check22 l = true).
  { apply perm_0101_cases in Hl.
    destruct Hl as [-> | [-> | [-> | [-> | [-> | ->]]]]]; vm_compute; reflexivity. }
  destruct (check22_sound l Hck) as [s0 [T [sf [E0 [Ep [Eg [Hm HT]]]]]]].
  exists s0, T, sf. rewrite E0, Eg. splits; auto.
  destruct HT as [[-> _] | [-> _]]; lia.
Qed.

Lemma game_2x2_outcomes_witness :
  (forall l, Permutation l (idshuffle l)) /\
  exists s0 T sf, setup_board idshuffle (new_sim 2 2) = Some s0 /\
    play_turns 5 s0 = Some (T, sf) /\ play_game idshuffle (new_sim 2 2) = Some sf /\
    length (matched sf) = 4%nat /\ (T <= 4)%nat /\
    ((T = 2%nat /\ moves sf = 0) \/ (T = 4%nat /\ moves sf = 2)).
Proof. split; [exact idshuffle_perm | apply (game_2x2_outcomes idshuffle idshuffle_perm)]. Defined.

(** * Further properties of the simulator *)

(** ** Lists and filters *)

Lemma filter_all_false {A : Type} (f : A -> bool) (l : list A) :
  (forall x, In x l -> f x = false) -> filter f l = [].
Proof.
  induction l as [| x t IH]; intros H; simpl; [reflexivity |].
  rewrite (H x (or_introl eq_refl)). apply IH. intros y Hy; apply H; right; exact Hy.
Qed.

Lemma filter_all_true {A : Type} (f : A -> bool) (l : list A) :
  (forall x, In x l -> f x = true) -> filter f l = l.
Proof.
  induction l as [| x t IH]; intros H; simpl; [reflexivity |].
  rewrite (H x (or_introl eq_refl)), IH; [reflexivity |].
  intros y Hy; apply H; right; exact Hy.
Qed.

Lemma filter_partition_length {A : Type} (f : A -> bool) (l : list A) :
  (length (filter f l) + length (filter (fun x => negb (f x)) l) = length l)%nat.
Proof. induction l as [| x t IH]; simpl; [reflexivity |]. destruct (f x); simpl; lia. Qed.

Lemma nodup_app_disj {A : Type} (a b : list A) (x : A) :
  NoDup (a ++ b) -> In x a -> In x b -> False.
Proof.
  induction a as [| y t IH]; simpl; intros Hnd Ha Hb; [exact Ha |].
  inversion Hnd as [| ? ? Hy Ht]; subst.
  destruct Ha as [-> | Ha]; [apply Hy, in_or_app; right; exact Hb | exact (IH Ht Ha Hb)].
Qed.

(** A filter that gains one element [p] of a duplicate-free list. *)
Lemma filter_gain_one (f g : pos -> bool) (l : list pos) (p : pos) :
  NoDup l -> In p l -> f p = false -> g p = true ->
  (forall x, In x l -> x <> p -> f x = g x) ->
  length (filter g l) = S (length (filter f l)).
Proof.
  induction l as [| x t IH]; intros Hnd Hp Hf Hg Hfg; [destruct Hp |].
  inversion Hnd as [| ? ? Hx Ht]; subst. simpl.
  destruct (pos_eq_dec x p) as [-> | Hne].
  - rewrite Hf, Hg. simpl. f_equal. f_equal. apply filter_ext_in.
    intros y Hy. symmetry. apply Hfg; [right; exact Hy | intros ->; contradiction].
  - destruct Hp as [-> | Hp]; [contradiction |].
    rewrite (Hfg x (or_introl eq_refl) Hne).
    assert (IH' : length (filter g t) = S (length (filter f t))).
    { apply IH; auto. intros y Hy Hyp; apply Hfg; [right; exact Hy | exact Hyp]. }
    destruct (g x); simpl; rewrite IH'; reflexivity.
Qed.

(** ... and two distinct elements [p], [q]. *)
Lemma filter_gain_two (f g : pos -> bool) (l : list pos) (p q : pos) :
  NoDup l -> In p l -> In q l -> p <> q ->
  f p = false -> f q = false -> g p = true -> g q = true ->
  (forall x, In x l -> x <> p -> x <> q -> f x = g x) ->
  length (filter g l) = S (S (length (filter f l))).
Proof.
  intros Hnd Hp Hq Hpq Hfp Hfq Hgp Hgq Hfg.
  set (h := fun x => if pos_eqb x p then true else f x).
  assert (Hqp : pos_eqb q p = false) by (apply pos_eqb_neq; auto).
  rewrite (filter_gain_one h g l q Hnd Hq); unfold h.
  - f_equal. apply (filter_gain_one f h l p Hnd Hp Hfp); unfold h.
    + rewrite pos_eqb_refl; reflexivity.
    + intros x _ Hx. apply pos_eqb_neq in Hx. rewrite Hx. reflexivity.
  - rewrite Hqp. exact Hfq.
  - exact Hgq.
  - intros x Hx Hxq. destruct (pos_eqb x p) eqn:Exp.
    + apply pos_eqb_eq in Exp; subst x. symmetry; exact Hgp.
    + apply Hfg; auto. apply pos_eqb_neq; exact Exp.
Qed.

Lemma mem_set_add (p q : pos) (m : list pos) :
  mem q (set_add p m) = pos_eqb q p || mem q m.
Proof.
  destruct (mem q (set_add p m)) eqn:E; symmetry.
  - apply mem_In, set_add_In in E as [-> | H].
    + rewrite pos_eqb_refl; reflexivity.
    + apply mem_In in H; rewrite H, orb_true_r; reflexivity.
  - apply mem_notIn in E. apply orb_false_iff; split.
    + apply pos_eqb_neq; intros ->; apply E, set_add_In; left; reflexivity.
    + apply mem_notIn; intros H; apply E, set_add_In; right; exact H.
Qed.

Lemma set_add2_length (p1 p2 : pos) (m : list pos) :
  p1 <> p2 -> ~ In p1 m -> ~ In p2 m ->
  length (set_add p2 (set_add p1 m)) = (length m + 2)%nat.
Proof.
  intros H12 H1 H2.
  assert (H2' : ~ In p2 (set_add p1 m)).
  { intros H; apply set_add_In in H as [H | H]; [apply H12; auto | contradiction]. }
  rewrite (set_add_length_new p2 _ H2'), (set_add_length_new p1 _ H1). lia.
Qed.

(** ** The keys of [revealed] *)

Lemma keys_rv_set (m : list (pos * Z)) (p : pos) (v : Z) :
  map fst (rv_set m p v) = if is_rev m p then map fst m else map fst m ++ [p].
Proof.
  induction m as [| [q w] t IH]; [reflexivity |].
  unfold is_rev in *; simpl. destruct (pos_eqb p q); simpl; [reflexivity |].
  rewrite IH. destruct (rv_lookup t p); reflexivity.
Qed.

Lemma is_rev_keys (m : list (pos * Z)) (p : pos) : is_rev m p = mem p (map fst m).
Proof.
  induction m as [| [q w] t IH]; [reflexivity |].
  unfold is_rev, mem in *; simpl. destruct (pos_eqb p q); simpl; auto.
Qed.

Lemma filter_notmem_prefix (a b : list pos) :
  NoDup (a ++ b) -> filter (fun p => negb (mem p a)) (a ++ b) = b.
Proof.
  intros H. rewrite filter_app.
  assert (Ha : filter (fun p => negb (mem p a)) a = []).
  { apply filter_all_false. intros x Hx. apply negb_false_iff, mem_In; exact Hx. }
  assert (Hb : filter (fun p => negb (mem p a)) b = b).
  { apply filter_all_true. intros x Hx. apply negb_true_iff, mem_notIn.
    intros Hx'. exact (nodup_app_disj a b x H Hx' Hx). }
  rewrite Ha, Hb. reflexivity.
Qed.

Lemma firstn_plus2 (l : list pos) (k : nat) (a b : pos) (r : list pos) :
  skipn k l = a :: b :: r -> firstn (k + 2) l = firstn k l ++ [a; b].
Proof.
  intros H.
  assert (Hk : (k < length l)%nat).
  { destruct (Nat.lt_ge_cases k (length l)) as [Hl | Hl]; [exact Hl |].
    rewrite skipn_all2 in H by exact Hl. discriminate. }
  rewrite <- (firstn_skipn k l) at 1. rewrite H, firstn_app, firstn_firstn, length_firstn.
  replace (Nat.min (k + 2) k) with k by lia.
  replace (k + 2 - Nat.min k (length l))%nat with 2%nat by lia.
  reflexivity.
Qed.

(** ** The three kinds of turn *)

(** A call of [play_turn] on a game in progress: the game is over and nothing
    changes, or it flips two distinct unmatched cells, either a known pair
    ([is_known_match=True]) or the first two unrevealed cells. *)
Lemma turn_kinds (s s' : sim) (b : bool) :
  inv s -> play_turn s = Some (b, s') ->
  (b = false /\ s' = s /\ length (matched s) = length (all_pos s)) \/
  (b = true /\ (length (matched s) < length (all_pos s))%nat /\
   exists p1 p2 k v1 v2, In p1 (all_pos s) /\ In p2 (all_pos s) /\ p1 <> p2 /\
     ~ In p1 (matched s) /\ ~ In p2 (matched s) /\
     make_move s p1 p2 k = Some s' /\
     get_symbol (board s) p1 = Some v1 /\ get_symbol (board s) p2 = Some v2 /\
     rows s' = rows s /\ cols s' = cols s /\ total_cards s' = total_cards s /\
     total_pairs s' = total_pairs s /\ board s' = board s /\
     revealed s' = rv_set (rv_set (revealed s) p1 v1) p2 v2 /\
     ((k = true /\ is_rev (revealed s) p1 = true /\ is_rev (revealed s) p2 = true /\
       v1 = v2 /\ matched s' = set_add p2 (set_add p1 (matched s)) /\
       moves s' = moves s /\ perfect_matches s' = perfect_matches s + 1) \/
      (k = false /\ (exists rest, unrevealed_of s (get_unmatched_positions s) = p1 :: p2 :: rest) /\
       is_rev (revealed s) p1 = false /\ is_rev (revealed s) p2 = false /\
       ((v1 = v2 /\ matched s' = set_add p2 (set_add p1 (matched s)) /\
         moves s' = moves s /\ perfect_matches s' = perfect_matches s) \/
        (v1 <> v2 /\ matched s' = matched s /\
         moves s' = moves s + 1 /\ perfect_matches s' = perfect_matches s))))).
Proof.
  intros Hi E.
  destruct (play_turn_step s Hi) as [b0 [s0 [E0 [_ H]]]].
  rewrite E in E0. injection E0 as Eb Es; subst b0 s0.
  destruct H as [[-> [-> Hc]] | [-> [Hlt _]]]; [left; auto |].
  right. split; [reflexivity |]. split; [exact Hlt |].
  destruct (play_turn_cases s Hi Hlt)
    as [[p [q [_ [Hp [Hq [Hpq [Hpm [Hqm [Hpr [Hqr [Hsym Ept]]]]]]]]]]] |
        [p1 [p2 [rest [_ [Hu [H1 [H2 [H12 [H1m [H2m [H1r [H2r Ept]]]]]]]]]]]]];
    rewrite Ept in E; unfold with_flag in E.
  - destruct (make_move s p q true) as [s'' |] eqn:Hm; [| discriminate].
    injection E as Es; subst s''.
    assert (Etp : total_pairs s' = total_pairs s).
    { unfold make_move in Hm. destruct (get_symbol (board s) p), (get_symbol (board s) q); try discriminate.
      destruct (Z.eqb _ _); injection Hm as <-; reflexivity. }
    destruct (make_move_fields s s' p q true Hm)
      as [v1 [v2 [E1 [E2 [Er [Ec [Et [Ebd [Erv Hres]]]]]]]]].
    exists p, q, true, v1, v2.
    do 14 (split; [assumption |]).
    left. destruct Hres as [[Hv [Em [Emv [_ Epf]]]] | [Hv _]]; [| congruence].
    repeat (split; [first [reflexivity | assumption] |]). exact Epf.
  - destruct (make_move s p1 p2 false) as [s'' |] eqn:Hm; [| discriminate].
    injection E as Es; subst s''.
    assert (Etp : total_pairs s' = total_pairs s).
    { unfold make_move in Hm. destruct (get_symbol (board s) p1), (get_symbol (board s) p2); try discriminate.
      destruct (Z.eqb _ _); injection Hm as <-; reflexivity. }
    destruct (make_move_fields s s' p1 p2 false Hm)
      as [v1 [v2 [E1 [E2 [Er [Ec [Et [Ebd [Erv Hres]]]]]]]]].
    exists p1, p2, false, v1, v2.
    do 14 (split; [assumption |]).
    right. split; [reflexivity |]. split; [exists rest; exact Hu |].
    split; [exact H1r |]. split; [exact H2r |].
    destruct Hres as [[Hv [Em [Emv [_ Epf]]]] | [Hv [Em [Emv [_ Epf]]]]]; [left | right];
      repeat (split; [assumption |]); exact Epf.
Qed.

(** ** Invariants of reachable states *)

Lemma setup_fields (shuffle : list Z -> list Z) (r c : Z) (s : sim) :
  setup_board shuffle (new_sim r c) = Some s ->
  revealed s = [] /\ matched s = [] /\ moves s = 0 /\ perfect_matches s = 0 /\
  rows s = r /\ cols s = c /\ total_cards s = r * c /\ total_pairs s = (r * c) / 2.
Proof.
  unfold setup_board, setup_board_with. destruct (build_board _ _ _ _); [| discriminate].
  intros E; injection E as <-. repeat split.
Qed.

(** The revealed cells are the first [k] cells in row-major order, for an
    even [k] of at least twice the wrong moves. *)
Lemma rev_prefix (s : sim) :
  reachable s -> exists k, map fst (revealed s) = firstn k (all_pos s) /\
    Nat.even k = true /\ (k <= length (all_pos s))%nat /\ 2 * moves s <= Z.of_nat k.
Proof.
  induction 1 as [r c shuffle s Hr Hc Hsh E | s s' b Hr IH E].
  - destruct (setup_fields shuffle r c s E) as [Erv [_ [Em _]]].
    exists 0%nat. rewrite Erv, Em. splits; simpl; auto; lia.
  - pose proof (reachable_inv s Hr) as Hi. destruct IH as [k [Hk [Hev [Hkl Hm]]]].
    destruct (turn_kinds s s' b Hi E)
      as [[_ [-> _]] | [_ [_ [p1 [p2 [kk [v1 [v2 [H1 [H2 [H12 [H1m [H2m [Hmv
          [E1 [E2 [Er [Ec [Et [Etp [Eb [Erv Hcase]]]]]]]]]]]]]]]]]]]]]];
      [exists k; auto |].
    rewrite (all_pos_same s s' Er Ec), Erv.
    destruct Hcase as [[_ [R1 [R2 [_ [_ [Emv _]]]]]] | [_ [[rest Hu] [R1 [R2 Hres]]]]].
    + exists k. rewrite keys_rv_set, is_rev_set, R2, orb_true_r, keys_rv_set, R1, Emv.
      auto.
    + assert (Hsk : skipn k (all_pos s) = p1 :: p2 :: rest).
      { rewrite <- Hu, unrevealed_of_eq by exact Hi.
        rewrite (filter_ext _ (fun p => negb (mem p (firstn k (all_pos s)))))
          by (intros x; rewrite is_rev_keys, Hk; reflexivity).
        pose proof (filter_notmem_prefix (firstn k (all_pos s)) (skipn k (all_pos s))) as HF.
        rewrite firstn_skipn in HF. symmetry. apply HF. apply all_positions_NoDup. }
      exists (k + 2)%nat.
      rewrite keys_rv_set, is_rev_set, R2, orb_false_r.
      replace (pos_eqb p2 p1) with false by (symmetry; apply pos_eqb_neq; auto).
      rewrite keys_rv_set, R1, Hk, (firstn_plus2 _ _ _ _ _ Hsk), <- app_assoc.
      split; [reflexivity |].
      split; [rewrite Nat.add_comm; exact Hev |].
      split; [pose proof (length_skipn k (all_pos s)) as HL; rewrite Hsk in HL; simpl in HL; lia |].
      destruct Hres as [[_ [_ [Em _]]] | [_ [_ [Em _]]]]; rewrite Em; lia.
Qed.

Lemma matched_all (s : sim) :
  inv s -> length (matched s) = length (all_pos s) -> forall p, In p (all_pos s) -> In p (matched s).
Proof.
  intros Hi Hl p Hp.
  apply (NoDup_length_incl (l' := all_pos s) (iv_mnodup s Hi)); [lia | | exact Hp].
  intros q Hq. pose proof (iv_mrev s Hi q Hq) as Eq. unfold is_rev in Eq.
  destruct (rv_lookup (revealed s) q) as [w |] eqn:Ew; [| discriminate].
  apply (rev_in_all_pos s q w Hi Ew).
Qed.

Lemma matched_in_all (s : sim) : inv s -> incl (matched s) (all_pos s).
Proof.
  intros Hi q Hq. pose proof (iv_mrev s Hi q Hq) as Eq. unfold is_rev in Eq.
  destruct (rv_lookup (revealed s) q) as [w |] eqn:Ew; [| discriminate].
  apply (rev_in_all_pos s q w Hi Ew).
Qed.

(** Twice the wrong moves is twice the perfect matches plus the cells
    revealed but not matched. *)
Lemma moves_balance (s : sim) :
  reachable s -> 2 * moves s = 2 * perfect_matches s + Z.of_nat (rev_unmatched s).
Proof.
  induction 1 as [r c shuffle s Hr Hc Hsh E | s s' b Hr IH E].
  - destruct (setup_fields shuffle r c s E) as [Erv [_ [Em [Ep _]]]].
    unfold rev_unmatched. rewrite Erv, Em, Ep, filter_all_false; [reflexivity |].
    intros x _; reflexivity.
  - pose proof (reachable_inv s Hr) as Hi.
    destruct (turn_kinds s s' b Hi E)
      as [[_ [-> _]] | [_ [_ [p1 [p2 [kk [v1 [v2 [H1 [H2 [H12 [H1m [H2m [Hmv
          [E1 [E2 [Er [Ec [Et [Etp [Eb [Erv Hcase]]]]]]]]]]]]]]]]]]]]]];
      [exact IH |].
    unfold rev_unmatched in *. rewrite (all_pos_same s s' Er Ec), Erv.
    assert (N12 : pos_eqb p1 p2 = false) by (apply pos_eqb_neq; auto).
    assert (N21 : pos_eqb p2 p1 = false) by (apply pos_eqb_neq; auto).
    assert (M1 : mem p1 (matched s) = false) by (apply mem_notIn; auto).
    assert (M2 : mem p2 (matched s) = false) by (apply mem_notIn; auto).
    pose proof (all_positions_NoDup (Z.to_nat (rows s)) (Z.to_nat (cols s))) as Hnd.
    fold (all_pos s) in Hnd.
    destruct Hcase as [[_ [R1 [R2 [_ [Em [Emv Epf]]]]]] |
                       [_ [_ [R1 [R2 [[_ [Em [Emv Epf]]] | [_ [Em [Emv Epf]]]]]]]]];
      rewrite Em, Emv, Epf.
    + (* a known pair: two revealed cells leave the unmatched ones *)
      rewrite (filter_gain_two
        (fun p => is_rev (rv_set (rv_set (revealed s) p1 v1) p2 v2) p &&
                  negb (mem p (set_add p2 (set_add p1 (matched s)))))
        (fun p => is_rev (revealed s) p && negb (mem p (matched s)))
        (all_pos s) p1 p2 Hnd H1 H2 H12) in IH.
      * lia.
      * rewrite is_rev_set2, !mem_set_add, pos_eqb_refl, N12. simpl.
        rewrite ?orb_true_r, ?andb_false_r. reflexivity.
      * rewrite is_rev_set2, !mem_set_add, pos_eqb_refl. simpl.
        rewrite ?orb_true_r, ?andb_false_r. reflexivity.
      * rewrite R1, M1. reflexivity.
      * rewrite R2, M2. reflexivity.
      * intros x _ Hx1 Hx2.
        apply pos_eqb_neq in Hx1, Hx2. rewrite is_rev_set2, !mem_set_add, Hx1, Hx2. reflexivity.
    + (* a lucky match: two unrevealed cells are revealed and matched *)
      rewrite (filter_ext_in
        (fun p => is_rev (rv_set (rv_set (revealed s) p1 v1) p2 v2) p &&
                  negb (mem p (set_add p2 (set_add p1 (matched s)))))
        (fun p => is_rev (revealed s) p && negb (mem p (matched s)))).
      * lia.
      * intros x _. rewrite is_rev_set2, !mem_set_add.
        destruct (pos_eqb x p2) eqn:Q2; [apply pos_eqb_eq in Q2; subst x; rewrite R2; reflexivity |].
        destruct (pos_eqb x p1) eqn:Q1; [apply pos_eqb_eq in Q1; subst x; rewrite R1; reflexivity |].
        reflexivity.
    + (* a wrong move: two unrevealed cells are revealed, unmatched *)
      rewrite (filter_gain_two
        (fun p => is_rev (revealed s) p && negb (mem p (matched s)))
        (fun p => is_rev (rv_set (rv_set (revealed s) p1 v1) p2 v2) p && negb (mem p (matched s)))
        (all_pos s) p1 p2 Hnd H1 H2 H12).
      * lia.
      * rewrite R1. reflexivity.
      * rewrite R2. reflexivity.
      * rewrite is_rev_set2, pos_eqb_refl, M1, orb_true_r. reflexivity.
      * rewrite is_rev_set2, pos_eqb_refl, M2. reflexivity.
      * intros x _ Hx1 Hx2.
        apply pos_eqb_neq in Hx1, Hx2. rewrite is_rev_set2, Hx1, Hx2. reflexivity.
Qed.

Lemma rev_unmatched_complete (s : sim) :
  inv s -> length (matched s) = length (all_pos s) -> rev_unmatched s = 0%nat.
Proof.
  intros Hi Hl. unfold rev_unmatched. rewrite filter_all_false; [reflexivity |].
  intros x Hx. apply (matched_all s Hi Hl), mem_In in Hx. rewrite Hx, andb_false_r. reflexivity.
Qed.

Lemma keys_complete (s : sim) :
  reachable s -> length (matched s) = length (all_pos s) -> map fst (revealed s) = all_pos s.
Proof.
  intros Hr Hl. pose proof (reachable_inv s Hr) as Hi.
  destruct (rev_prefix s Hr) as [k [Hk [_ [Hkl _]]]].
  rewrite Hk. destruct (skipn k (all_pos s)) as [| q rest] eqn:Hs.
  - rewrite <- (firstn_skipn k (all_pos s)) at 2. rewrite Hs, app_nil_r. reflexivity.
  - exfalso.
    assert (Hq : In q (all_pos s)).
    { rewrite <- (firstn_skipn k (all_pos s)), Hs. apply in_or_app; right; left; reflexivity. }
    pose proof (iv_mrev s Hi q (matched_all s Hi Hl q Hq)) as Hrev.
    rewrite is_rev_keys, Hk in Hrev. apply mem_In in Hrev.
    apply (nodup_app_disj (firstn k (all_pos s)) (skipn k (all_pos s)) q).
    + rewrite firstn_skipn. apply all_positions_NoDup.
    + exact Hrev.
    + rewrite Hs; left; reflexivity.
Qed.

Lemma moves_bound (s : sim) :
  reachable s -> 0 <= moves s /\ 2 * moves s <= total_cards s.
Proof.
  intros Hr. pose proof (reachable_inv s Hr) as Hi.
  destruct (rev_prefix s Hr) as [k [_ [_ [Hkl Hm]]]].
  split; [apply (iv_moves_nonneg s Hi) |]. rewrite (total_cards_inv s Hi). lia.
Qed.

(** ** Loops *)

Lemma play_turns_facts (f : nat) (s sf : sim) (T : nat) :
  reachable s -> play_turns f s = Some (T, sf) ->
  reachable sf /\ total_pairs sf = total_pairs s /\ total_cards sf = total_cards s /\
  2 * Z.of_nat T = 2 * (moves sf - moves s) +
                   (Z.of_nat (length (matched sf)) - Z.of_nat (length (matched s))).
Proof.
  revert s T; induction f as [| f IH]; intros s T Hr E; [discriminate |].
  simpl in E. pose proof (reachable_inv s Hr) as Hi.
  destruct (play_turn s) as [[b s'] |] eqn:Ept; [| discriminate].
  pose proof (reach_turn s s' b Hr Ept) as Hr'.
  destruct (turn_kinds s s' b Hi Ept)
    as [[-> [-> _]] | [-> [_ [p1 [p2 [kk [v1 [v2 [H1 [H2 [H12 [H1m [H2m [Hmv
        [E1 [E2 [Er [Ec [Et [Etp [Eb [Erv Hcase]]]]]]]]]]]]]]]]]]]]]].
  - injection E as <- <-. splits; auto. lia.
  - destruct (play_turns f s') as [[n s''] |] eqn:E'; [| discriminate].
    injection E as <- <-.
    destruct (IH s' n Hr' E') as [Hrf [Etpf [Etf Hc]]].
    splits; [exact Hrf | congruence | congruence |].
    destruct Hcase as [[_ [_ [_ [_ [Em [Emv _]]]]]] |
                       [_ [_ [_ [_ [[_ [Em [Emv _]]] | [_ [Em [Emv _]]]]]]]]];
      rewrite Em, Emv in Hc; rewrite ?set_add2_length in Hc by auto; lia.
Qed.

Lemma game_loop_reach (fuel : nat) (tc : Z) (s : sim) :
  reachable s -> exists sf, game_loop fuel tc s = Some sf /\ reachable sf /\
    total_cards sf = total_cards s.
Proof.
  revert tc s; induction fuel as [| f IH]; intros tc s Hr; simpl; [eauto |].
  destruct (play_turn_step s (reachable_inv s Hr)) as [b [s' [E _]]]. rewrite E.
  pose proof (reach_turn s s' b Hr E) as Hr'.
  destruct (play_turn_frame s s' b E) as [_ [_ [Et _]]].
  destruct b; [| exists s'; auto].
  destruct (Z.gtb (tc + 1) 1000); [exists s'; auto |].
  destruct (IH (tc + 1) s' Hr') as [sf [Eg [Hrf Etf]]]. exists sf; splits; auto; congruence.
Qed.

(** [play_game] on an even board never raises and returns at most
    [rows*cols/2] wrong moves. *)
Lemma play_game_bound (shuffle : list Z -> list Z) (r c : Z) :
  (forall l, Permutation l (shuffle l)) -> 0 <= r -> 0 <= c -> Z.even (r * c) = true ->
  exists sf, play_game shuffle (new_sim r c) = Some sf /\ reachable sf /\
    0 <= moves sf <= (r * c) / 2.
Proof.
  intros Hsh Hr Hc He.
  destruct (inv_setup (shuffle (pairs_of (new_sim r c))) r c Hr Hc He (Hsh _))
    as [s0 [E0 _]].
  assert (Hr0 : reachable s0) by (apply (reach_setup r c shuffle); auto).
  destruct (setup_fields shuffle r c s0 E0) as [_ [_ [_ [_ [_ [_ [Et0 _]]]]]]].
  destruct (game_loop_reach 1001 0 s0 Hr0) as [sf [Eg [Hrf Etf]]].
  exists sf. split; [unfold play_game, setup_board; rewrite E0; exact Eg |].
  split; [exact Hrf |].
  destruct (moves_bound sf Hrf) as [H0 H2]. split; [exact H0 |].
  apply Z.div_le_lower_bound; lia.
Qed.

(** ** [run_simulations] *)

Lemma fold_min_spec (t : list Z) (x : Z) :
  (forall y, In y (x :: t) -> fold_left Z.min t x <= y) /\ In (fold_left Z.min t x) (x :: t).
Proof.
  revert x; induction t as [| y t IH]; intros x; simpl.
  - split; [intros y [-> | []]; lia | left; reflexivity].
  - destruct (IH (Z.min x y)) as [Hle Hin]. split.
    + intros z [<- | [<- | Hz]].
      * specialize (Hle (Z.min x y) (or_introl eq_refl)). lia.
      * specialize (Hle (Z.min x y) (or_introl eq_refl)). lia.
      * apply Hle; right; exact Hz.
    + destruct Hin as [Hin | Hin]; [| right; right; exact Hin].
      rewrite <- Hin. destruct (Z.min_spec x y) as [[_ ->] | [_ ->]]; simpl; auto.
Qed.

Lemma fold_max_spec (t : list Z) (x : Z) :
  (forall y, In y (x :: t) -> y <= fold_left Z.max t x) /\ In (fold_left Z.max t x) (x :: t).
Proof.
  revert x; induction t as [| y t IH]; intros x; simpl.
  - split; [intros y [-> | []]; lia | left; reflexivity].
  - destruct (IH (Z.max x y)) as [Hle Hin]. split.
    + intros z [<- | [<- | Hz]].
      * specialize (Hle (Z.max x y) (or_introl eq_refl)). lia.
      * specialize (Hle (Z.max x y) (or_introl eq_refl)). lia.
      * apply Hle; right; exact Hz.
    + destruct Hin as [Hin | Hin]; [| right; right; exact Hin].
      rewrite <- Hin. destruct (Z.max_spec x y) as [[_ ->] | [_ ->]]; simpl; auto.
Qed.

Lemma fold_sum_bounds (l : list Z) (lo hi a : Z) :
  (forall x, In x l -> lo <= x <= hi) ->
  a + Z.of_nat (length l) * lo <= fold_left Z.add l a <= a + Z.of_nat (length l) * hi.
Proof.
  revert a; induction l as [| x t IH]; intros a H; cbn [fold_left length]; [lia |].
  destruct (IH (a + x)) as [H1 H2]; [intros y Hy; apply H; right; exact Hy |].
  specialize (H x (or_introl eq_refl)).
  rewrite Nat2Z.inj_succ, !Z.mul_succ_l. lia.
Qed.

Lemma run_games_spec (shuffles : nat -> list Z -> list Z) (r c : Z) :
  (forall i l, Permutation l (shuffles i l)) -> 0 <= r -> 0 <= c -> Z.even (r * c) = true ->
  forall n i, exists res, run_games shuffles r c i n = Some res /\ length res = n /\
    (forall j, (j < n)%nat -> nth_error res j = play_game_result (shuffles (i + j)%nat) (new_sim r c)) /\
    (forall m, In m res -> 0 <= m <= (r * c) / 2).
Proof.
  intros Hsh Hr Hc He n. induction n as [| n IH]; intros i; simpl.
  - exists []. splits; auto; [intros j Hj; lia | intros m []].
  - destruct (play_game_bound (shuffles i) r c (Hsh i) Hr Hc He) as [sf [Eg [_ Hb]]].
    unfold play_game_result at 1. rewrite Eg.
    destruct (IH (S i)) as [res [Er [Hl [Hn Hm]]]]. rewrite Er.
    exists (moves sf :: res). splits; simpl; auto.
    + intros [| j] Hj; simpl.
      * unfold play_game_result. rewrite Nat.add_0_r, Eg. reflexivity.
      * rewrite Hn by lia. f_equal. f_equal. lia.
    + intros m [<- | Hm']; auto.
Qed.

(** ** Boards with no cells *)

Lemma build_board_cols0 (pairs : list Z) (idx n : nat) :
  build_board pairs idx n 0 = Some (repeat [] n).
Proof.
  revert idx; induction n as [| n IH]; intros idx; simpl; [reflexivity |].
  rewrite IH. reflexivity.
Qed.

(** ** Queries *)

Lemma map_fst_filter (m : list (pos * Z)) (F : pos * Z -> bool) (g : pos -> bool) :
  (forall p w, In (p, w) m -> F (p, w) = g p) ->
  map fst (filter F m) = filter g (map fst m).
Proof.
  induction m as [| [p w] t IH]; intros H; simpl; [reflexivity |].
  assert (IH' : map fst (filter F t) = filter g (map fst t))
    by (apply IH; intros q u Hq; apply H; right; exact Hq).
  rewrite (H p w (or_introl eq_refl)).
  destruct (g p); simpl; [f_equal |]; exact IH'.
Qed.

Lemma filter_mem_length (m l : list pos) :
  NoDup m -> NoDup l -> incl m l -> length (filter (fun p => mem p m) l) = length m.
Proof.
  intros Hm Hl Hinc. symmetry. apply Permutation_length, NoDup_Permutation; auto.
  - apply NoDup_filter; exact Hl.
  - intros x. rewrite filter_In, mem_In. split; [intros Hx; split; auto | tauto].
Qed.

(** * Properties of the simulator beyond the specification *)

(** [play_turn] on any state of a game never raises; it answers [False]
    exactly when every cell is matched, and then changes nothing. *)
Theorem play_turn_total (s : sim) :
  reachable s ->
  exists b s', play_turn s = Some (b, s') /\
    (b = false <-> Z.of_nat (length (matched s)) = total_cards s) /\
    (b = false -> s' = s).
Proof.
  intros Hr. pose proof (reachable_inv s Hr) as Hi.
  destruct (play_turn_step s Hi) as [b [s' [E [_ H]]]].
  exists b, s'. split; [exact E |]. rewrite (total_cards_inv s Hi).
  destruct H as [[-> [-> Hc]] | [-> [Hlt _]]].
  - split; [split; [intros _; lia | reflexivity] | auto].
  - split; [split; [discriminate | lia] | discriminate].
Qed.

Lemma play_turn_total_witness :
  reachable g22_1 /\
  exists b s', play_turn g22_1 = Some (b, s') /\
    (b = false <-> Z.of_nat (length (matched g22_1)) = total_cards g22_1) /\
    (b = false -> s' = g22_1).
Proof. split; [apply g22_1_reachable | apply play_turn_total, g22_1_reachable]. Defined.

(** A turn that answers [True] flips two distinct unmatched cells of the
    board: equal symbols add both to [matched] and count no wrong move;
    different symbols leave [matched] alone and count one wrong move. *)
Theorem play_turn_flips_two_cells (s s' : sim) :
  reachable s -> play_turn s = Some (true, s') ->
  exists p1 p2 k, p1 <> p2 /\ In p1 (all_pos s) /\ In p2 (all_pos s) /\
    ~ In p1 (matched s) /\ ~ In p2 (matched s) /\ make_move s p1 p2 k = Some s' /\
    ((get_symbol (board s) p1 = get_symbol (board s) p2 /\
      matched s' = set_add p2 (set_add p1 (matched s)) /\
      length (matched s') = (length (matched s) + 2)%nat /\ moves s' = moves s) \/
     (get_symbol (board s) p1 <> get_symbol (board s) p2 /\
      matched s' = matched s /\ moves s' = moves s + 1)).
Proof.
  intros Hr E. pose proof (reachable_inv s Hr) as Hi.
  destruct (turn_kinds s s' true Hi E)
    as [[Hb _] | [_ [_ [p1 [p2 [kk [v1 [v2 [H1 [H2 [H12 [H1m [H2m [Hmv
        [E1 [E2 [Er [Ec [Et [Etp [Eb [Erv Hcase]]]]]]]]]]]]]]]]]]]]]];
    [discriminate |].
  exists p1, p2, kk. splits; auto.
  destruct Hcase as [[_ [_ [_ [Hv [Em [Emv _]]]]]] |
                     [_ [_ [_ [_ [[Hv [Em [Emv _]]] | [Hv [Em [Emv _]]]]]]]]].
  - left. rewrite Em, set_add2_length by auto. splits; auto; congruence.
  - left. rewrite Em, set_add2_length by auto. splits; auto; congruence.
  - right. splits; auto. rewrite E1, E2. congruence.
Qed.

Lemma play_turn_flips_two_cells_witness :
  reachable g22_1 /\ play_turn g22_1 = Some (true, g22_2) /\
  exists p1 p2 k, p1 <> p2 /\ In p1 (all_pos g22_1) /\ In p2 (all_pos g22_1) /\
    ~ In p1 (matched g22_1) /\ ~ In p2 (matched g22_1) /\ make_move g22_1 p1 p2 k = Some g22_2 /\
    ((get_symbol (board g22_1) p1 = get_symbol (board g22_1) p2 /\
      matched g22_2 = set_add p2 (set_add p1 (matched g22_1)) /\
      length (matched g22_2) = (length (matched g22_1) + 2)%nat /\ moves g22_2 = moves g22_1) \/
     (get_symbol (board g22_1) p1 <> get_symbol (board g22_1) p2 /\
      matched g22_2 = matched g22_1 /\ moves g22_2 = moves g22_1 + 1)).
Proof.
  assert (E : play_turn g22_1 = Some (true, g22_2)) by (vm_compute; reflexivity).
  split; [apply g22_1_reachable |]. split; [exact E |].
  apply (play_turn_flips_two_cells g22_1 g22_2 g22_1_reachable E).
Defined.

(** The cells ever revealed are always the first [k] cells of the board in
    row-major order, for an even [k], and [revealed] lists them in that
    order: the player explores the board left to right, top to bottom. *)
Theorem revealed_row_major_prefix (s : sim) :
  reachable s ->
  exists k, map fst (revealed s) = firstn k (all_pos s) /\ Nat.even k = true /\
    (k <= length (all_pos s))%nat.
Proof.
  intros Hr. destruct (rev_prefix s Hr) as [k [Hk [Hev [Hkl _]]]]. exists k; auto.
Qed.

Lemma revealed_row_major_prefix_witness :
  reachable g22_1 /\
  exists k, map fst (revealed g22_1) = firstn k (all_pos g22_1) /\ Nat.even k = true /\
    (k <= length (all_pos g22_1))%nat.
Proof. split; [apply g22_1_reachable | apply revealed_row_major_prefix, g22_1_reachable]. Defined.

(** Every wrong move reveals two cards that later leave by a perfect match:
    twice [moves] is twice [perfect_matches] plus the number of cells
    revealed and not yet matched. *)
Theorem moves_perfect_balance (s : sim) :
  reachable s -> 2 * moves s = 2 * perfect_matches s + Z.of_nat (rev_unmatched s).
Proof. intros Hr. exact (moves_balance s Hr). Qed.

Lemma moves_perfect_balance_witness :
  reachable g22_1 /\ 2 * moves g22_1 = 2 * perfect_matches g22_1 + Z.of_nat (rev_unmatched g22_1).
Proof. split; [apply g22_1_reachable | apply moves_perfect_balance, g22_1_reachable]. Defined.

(** A finished game on an even board: [perfect_matches = moves], the
    number of turns is [moves + total_pairs], the printed pairs matched
    [len(matched) // 2] is [total_pairs], and [revealed] lists every cell in
    row-major order; with at most 1000 cells this is the state [play_game]
    ends in. *)
Theorem game_end_counts (shuffle : list Z -> list Z) (r c : Z) :
  (forall l, Permutation l (shuffle l)) -> 0 <= r -> 0 <= c -> Z.even (r * c) = true ->
  exists s0 T sf, setup_board shuffle (new_sim r c) = Some s0 /\
    play_turns (S (Z.to_nat (r * c))) s0 = Some (T, sf) /\
    length (matched sf) = length (all_pos sf) /\
    perfect_matches sf = moves sf /\
    Z.of_nat T = moves sf + total_pairs sf /\
    Z.of_nat (length (matched sf)) / 2 = total_pairs sf /\
    map fst (revealed sf) = all_pos sf /\
    (r * c <= 1000 -> play_game shuffle (new_sim r c) = Some sf).
Proof.
  intros Hsh Hr Hc He.
  destruct (inv_setup (shuffle (pairs_of (new_sim r c))) r c Hr Hc He (Hsh _))
    as [s0 [E0 [Hi0 [Hm0 _]]]].
  assert (Hr0 : reachable s0) by (apply (reach_setup r c shuffle); auto).
  destruct (setup_fields shuffle r c s0 E0)
    as [_ [Emt0 [Emv0 [_ [_ [_ [Et0 Etp0]]]]]]].
  assert (HN : Z.to_nat (r * c) = (Z.to_nat r * Z.to_nat c)%nat) by (apply Z2Nat.inj_mul; lia).
  destruct (play_turns_complete (S (Z.to_nat (r * c))) s0 Hi0 ltac:(lia))
    as [T [sf [Ep [HT [Hif [Eap [Etf [Hc' Hf]]]]]]]].
  destruct (play_turns_facts _ s0 sf T Hr0 Ep) as [Hrf [Etpf [_ Hcount]]].
  rewrite Emt0, Emv0 in Hcount. simpl length in Hcount.
  assert (Hlen : Z.of_nat (length (matched sf)) = r * c).
  { rewrite Hc', <- (total_cards_inv sf Hif), Etf, Et0. reflexivity. }
  apply Z.even_spec in He as [m Hm].
  assert (Hpairs : total_pairs sf = m).
  { rewrite Etpf, Etp0, Hm, Z.mul_comm, Z.div_mul by lia. reflexivity. }
  exists s0, T, sf. splits.
  - exact E0.
  - exact Ep.
  - exact Hc'.
  - pose proof (moves_balance sf Hrf) as Hb.
    rewrite (rev_unmatched_complete sf Hif Hc') in Hb. lia.
  - rewrite Hpairs. lia.
  - rewrite Hlen, Hpairs, Hm, Z.mul_comm, Z.div_mul by lia. reflexivity.
  - exact (keys_complete sf Hrf Hc').
  - intros Hsmall. unfold play_game, setup_board. rewrite E0.
    apply (game_loop_play_turns _ _ _ _ _ T Ep); lia.
Qed.

Lemma game_end_counts_witness :
  (forall l, Permutation l (idshuffle l)) /\ 0 <= 2 /\ 0 <= 2 /\ Z.even (2 * 2) = true /\
  exists s0 T sf, setup_board idshuffle (new_sim 2 2) = Some s0 /\
    play_turns (S (Z.to_nat (2 * 2))) s0 = Some (T, sf) /\
    length (matched sf) = length (all_pos sf) /\
    perfect_matches sf = moves sf /\
    Z.of_nat T = moves sf + total_pairs sf /\
    Z.of_nat (length (matched sf)) / 2 = total_pairs sf /\
    map fst (revealed sf) = all_pos sf /\
    (2 * 2 <= 1000 -> play_game idshuffle (new_sim 2 2) = Some sf).
Proof.
  split; [exact idshuffle_perm |]. split; [lia |]. split; [lia |]. split; [reflexivity |].
  apply (game_end_counts idshuffle 2 2 idshuffle_perm); [lia | lia | reflexivity].
Defined.

(** On every even board, also when the 1000-turn cap stops it, [play_game]
    does not raise and returns between 0 and [rows*cols/2] wrong moves. *)
Theorem play_game_moves_range (shuffle : list Z -> list Z) (r c : Z) :
  (forall l, Permutation l (shuffle l)) -> 0 <= r -> 0 <= c -> Z.even (r * c) = true ->
  exists m, play_game_result shuffle (new_sim r c) = Some m /\ 0 <= m <= (r * c) / 2.
Proof.
  intros Hsh Hr Hc He.
  destruct (play_game_bound shuffle r c Hsh Hr Hc He) as [sf [Eg [_ Hb]]].
  exists (moves sf). unfold play_game_result. rewrite Eg. auto.
Qed.

Lemma play_game_moves_range_witness :
  (forall l, Permutation l (idshuffle l)) /\ 0 <= 2 /\ 0 <= 1002 /\ Z.even (2 * 1002) = true /\
  exists m, play_game_result idshuffle (new_sim 2 1002) = Some m /\ 0 <= m <= (2 * 1002) / 2.
Proof.
  split; [exact idshuffle_perm |]. split; [lia |]. split; [lia |]. split; [reflexivity |].
  apply (play_game_moves_range idshuffle 2 1002 idshuffle_perm); [lia | lia | reflexivity].
Defined.

(** With [rows <= 0] or [cols <= 0] the board has no cell: [setup_board]
    never raises (also when [rows*cols] is odd, or positive from two negative
    factors), the first [play_turn] answers [False] and [play_game] returns 0. *)
Theorem empty_board_no_turn (shuffle : list Z -> list Z) (r c : Z) :
  r <= 0 \/ c <= 0 ->
  exists s1, setup_board shuffle (new_sim r c) = Some s1 /\ all_pos s1 = [] /\
    play_turn s1 = Some (false, s1) /\ play_game shuffle (new_sim r c) = Some s1 /\
    play_game_result shuffle (new_sim r c) = Some 0.
Proof.
  intros H.
  assert (Hb : build_board (shuffle (pairs_of (new_sim r c))) 0 (Z.to_nat r) (Z.to_nat c)
               = Some (repeat [] (Z.to_nat r))).
  { destruct H as [H | H].
    - replace (Z.to_nat r) with 0%nat by lia. reflexivity.
    - replace (Z.to_nat c) with 0%nat by lia. apply build_board_cols0. }
  set (s1 := with_board (new_sim r c) (repeat [] (Z.to_nat r))).
  assert (Es : setup_board shuffle (new_sim r c) = Some s1).
  { unfold setup_board, setup_board_with. cbn [rows cols new_sim]. rewrite Hb. reflexivity. }
  assert (Ea : all_pos s1 = []).
  { unfold all_pos, s1. cbn [with_board rows cols new_sim].
    apply length_zero_iff_nil. rewrite all_positions_length. lia. }
  assert (Ept : play_turn s1 = Some (false, s1)).
  { unfold play_turn, get_unmatched_positions. rewrite Ea.
    destruct (Z.eqb (Z.of_nat (length (matched s1))) (total_cards s1)); reflexivity. }
  assert (Eg : play_game shuffle (new_sim r c) = Some s1).
  { unfold play_game. rewrite Es. change 1001%nat with (S 1000). cbn [game_loop].
    rewrite Ept. reflexivity. }
  exists s1. splits; auto.
  unfold play_game_result. rewrite Eg. reflexivity.
Qed.

Lemma empty_board_no_turn_witness :
  (-1 <= 0 \/ 3 <= 0) /\
  exists s1, setup_board idshuffle (new_sim (-1) 3) = Some s1 /\ all_pos s1 = [] /\
    play_turn s1 = Some (false, s1) /\ play_game idshuffle (new_sim (-1) 3) = Some s1 /\
    play_game_result idshuffle (new_sim (-1) 3) = Some 0.
Proof. split; [left; lia | apply (empty_board_no_turn idshuffle (-1) 3); left; lia]. Defined.

(** [run_simulations] on a board with an odd number of cells raises in the
    first game: the [setup_board] of game 0 raises ([IndexError] on the
    short card list), so that game's [play_game] raises, no result is
    collected and [run_simulations] itself raises. *)
Theorem run_simulations_odd_raises (shuffles : nat -> list Z -> list Z) (r c n : Z) :
  (forall i l, Permutation l (shuffles i l)) -> 0 <= r -> 0 <= c -> Z.odd (r * c) = true ->
  1 <= n ->
  setup_board (shuffles 0%nat) (new_sim r c) = None /\
  play_game (shuffles 0%nat) (new_sim r c) = None /\
  play_game_result (shuffles 0%nat) (new_sim r c) = None /\
  run_games shuffles r c 0 (Z.to_nat n) = None /\
  run_simulations shuffles r c n = None.
Proof.
  intros Hsh Hr Hc Ho Hn.
  assert (Es : setup_board (shuffles 0%nat) (new_sim r c) = None)
    by (apply setup_board_odd; auto).
  assert (Eg : play_game (shuffles 0%nat) (new_sim r c) = None)
    by (unfold play_game; rewrite Es; reflexivity).
  assert (Er : play_game_result (shuffles 0%nat) (new_sim r c) = None)
    by (unfold play_game_result; rewrite Eg; reflexivity).
  assert (Eq : run_games shuffles r c 0 (Z.to_nat n) = None).
  { destruct (Z.to_nat n) as [| n'] eqn:En; [lia |]. cbn [run_games]. rewrite Er. reflexivity. }
  splits; try assumption.
  unfold run_simulations. rewrite Eq. reflexivity.
Qed.

Lemma run_simulations_odd_raises_witness :
  (forall i l, Permutation l ((fun _ : nat => idshuffle) i l)) /\ 0 <= 3 /\ 0 <= 3 /\
  Z.odd (3 * 3) = true /\ 1 <= 5 /\
  setup_board idshuffle (new_sim 3 3) = None /\
  play_game idshuffle (new_sim 3 3) = None /\
  play_game_result idshuffle (new_sim 3 3) = None /\
  run_games (fun _ => idshuffle) 3 3 0 (Z.to_nat 5) = None /\
  run_simulations (fun _ => idshuffle) 3 3 5 = None.
Proof.
  assert (H : forall i l, Permutation l ((fun _ : nat => idshuffle) i l))
    by (intros i l; apply idshuffle_perm).
  split; [exact H |]. split; [lia |]. split; [lia |]. split; [reflexivity |]. split; [lia |].
  apply (run_simulations_odd_raises _ 3 3 5 H); [lia | lia | reflexivity | lia].
Defined.

(** [run_simulations] on an even board with [num_games >= 1]: [results]
    holds the value of each game's [play_game], and the printed statistics
    satisfy [0 <= min <= average <= max <= rows*cols/2]. *)
Theorem run_simulations_summary (shuffles : nat -> list Z -> list Z) (r c n : Z) :
  (forall i l, Permutation l (shuffles i l)) -> 0 <= r -> 0 <= c -> Z.even (r * c) = true ->
  1 <= n ->
  exists results st, run_games shuffles r c 0 (Z.to_nat n) = Some results /\
    Z.of_nat (length results) = n /\
    (forall i, (i < Z.to_nat n)%nat ->
       nth_error results i = play_game_result (shuffles i) (new_sim r c)) /\
    run_simulations shuffles r c n = Some st /\
    num_simulations st = n /\ summary_pairs st = (r * c) / 2 /\
    0 <= min_moves st /\ (inject_Z (min_moves st) <= average st)%Q /\
    (average st <= inject_Z (max_moves st))%Q /\ max_moves st <= (r * c) / 2.
Proof.
  intros Hsh Hr Hc He Hn.
  destruct (run_games_spec shuffles r c Hsh Hr Hc He (Z.to_nat n) 0) as [res [Er [Hl [Hnth Hm]]]].
  destruct res as [| x t]; [simpl in Hl; lia |].
  destruct (fold_min_spec t x) as [Hmin Hminin].
  destruct (fold_max_spec t x) as [Hmax Hmaxin].
  destruct (fold_sum_bounds (x :: t) (fold_left Z.min t x) (fold_left Z.max t x) 0)
    as [Hs1 Hs2]; [intros y Hy; split; [apply Hmin | apply Hmax]; exact Hy |].
  pose proof (Hm _ Hminin) as Hmn. pose proof (Hm _ Hmaxin) as Hmx.
  eexists; eexists. split; [exact Er |].
  split; [rewrite Hl; lia |].
  split; [intros i Hi; rewrite (Hnth i Hi); reflexivity |].
  split; [unfold run_simulations; rewrite Er; reflexivity |].
  cbn [num_simulations summary_pairs min_moves max_moves average].
  split; [reflexivity |]. split; [reflexivity |]. split; [lia |].
  assert (Hpos : (0 < inject_Z (Z.of_nat (length (x :: t))))%Q).
  { change 0%Q with (inject_Z 0). rewrite <- Zlt_Qlt. simpl length. lia. }
  split; [| split; [| lia]].
  - apply Qle_shift_div_l; [exact Hpos |]. rewrite <- inject_Z_mult, <- Zle_Qle. lia.
  - apply Qle_shift_div_r; [exact Hpos |]. rewrite <- inject_Z_mult, <- Zle_Qle. lia.
Qed.

Lemma run_simulations_summary_witness :
  (forall i l, Permutation l ((fun _ : nat => idshuffle) i l)) /\ 0 <= 2 /\ 0 <= 2 /\
  Z.even (2 * 2) = true /\ 1 <= 3 /\
  exists results st, run_games (fun _ => idshuffle) 2 2 0 (Z.to_nat 3) = Some results /\
    Z.of_nat (length results) = 3 /\
    (forall i, (i < Z.to_nat 3)%nat ->
       nth_error results i = play_game_result ((fun _ : nat => idshuffle) i) (new_sim 2 2)) /\
    run_simulations (fun _ => idshuffle) 2 2 3 = Some st /\
    num_simulations st = 3 /\ summary_pairs st = (2 * 2) / 2 /\
    0 <= min_moves st /\ (inject_Z (min_moves st) <= average st)%Q /\
    (average st <= inject_Z (max_moves st))%Q /\ max_moves st <= (2 * 2) / 2.
Proof.
  assert (H : forall i l, Permutation l ((fun _ : nat => idshuffle) i l))
    by (intros i l; apply idshuffle_perm).
  split; [exact H |]. split; [lia |]. split; [lia |]. split; [reflexivity |]. split; [lia |].
  apply (run_simulations_summary _ 2 2 3 H); [lia | lia | reflexivity | lia].
Defined.

(** [find_known_match(symbol)] returns the first cell in row-major order
    that has been revealed, is not matched and holds [symbol] on the board,
    and [None] when there is none. *)
Theorem find_known_match_row_major (s : sim) (v : Z) :
  reachable s ->
  find_known_match s v =
    hd_error (filter (fun p => is_rev (revealed s) p && negb (mem p (matched s)) &&
                               sym_eqb (board s) p v) (all_pos s)).
Proof.
  intros Hr. pose proof (reachable_inv s Hr) as Hi.
  destruct (rev_prefix s Hr) as [k [Hk _]].
  unfold find_known_match.
  rewrite (map_fst_filter _ _ (fun p => sym_eqb (board s) p v && negb (mem p (matched s)))).
  2: { intros p w Hpw. destruct (iv_rv s Hi p w Hpw) as [_ Ew].
       unfold sym_eqb. rewrite Ew. reflexivity. }
  rewrite Hk. f_equal.
  pose proof (all_positions_NoDup (Z.to_nat (rows s)) (Z.to_nat (cols s))) as Hnd.
  fold (all_pos s) in Hnd. rewrite <- (firstn_skipn k (all_pos s)) in Hnd.
  rewrite <- (firstn_skipn k (all_pos s)) at 2. rewrite filter_app.
  rewrite (filter_all_false _ (skipn k (all_pos s))), app_nil_r.
  - apply filter_ext_in. intros x Hx.
    assert (Hrx : is_rev (revealed s) x = true) by (rewrite is_rev_keys, Hk; apply mem_In; exact Hx).
    rewrite Hrx. simpl. apply andb_comm.
  - intros x Hx.
    assert (Hrx : is_rev (revealed s) x = false).
    { rewrite is_rev_keys, Hk. apply mem_notIn. intros Hx'.
      exact (nodup_app_disj _ _ x Hnd Hx' Hx). }
    rewrite Hrx. reflexivity.
Qed.

Lemma find_known_match_row_major_witness :
  reachable g22_2 /\
  find_known_match g22_2 0 =
    hd_error (filter (fun p => is_rev (revealed g22_2) p && negb (mem p (matched g22_2)) &&
                               sym_eqb (board g22_2) p 0) (all_pos g22_2)).
Proof. split; [apply g22_2_reachable | apply find_known_match_row_major, g22_2_reachable]. Defined.

(** [get_unmatched_positions] lists, without repetition, exactly the cells
    of the board not in [matched]: [total_cards - len(matched)] of them. *)
Theorem unmatched_positions_spec (s : sim) :
  reachable s ->
  NoDup (get_unmatched_positions s) /\
  (forall p, In p (get_unmatched_positions s) <-> In p (all_pos s) /\ ~ In p (matched s)) /\
  Z.of_nat (length (get_unmatched_positions s)) = total_cards s - Z.of_nat (length (matched s)).
Proof.
  intros Hr. pose proof (reachable_inv s Hr) as Hi.
  pose proof (all_positions_NoDup (Z.to_nat (rows s)) (Z.to_nat (cols s))) as Hnd.
  fold (all_pos s) in Hnd.
  unfold get_unmatched_positions. splits.
  - apply NoDup_filter; exact Hnd.
  - intros p. rewrite filter_In, negb_true_iff, mem_notIn. tauto.
  - pose proof (filter_partition_length (fun p => mem p (matched s)) (all_pos s)) as HP.
    rewrite (filter_mem_length (matched s) (all_pos s) (iv_mnodup s Hi) Hnd (matched_in_all s Hi))
      in HP.
    rewrite (total_cards_inv s Hi). lia.
Qed.

Lemma unmatched_positions_spec_witness :
  reachable g22_2 /\
  NoDup (get_unmatched_positions g22_2) /\
  (forall p, In p (get_unmatched_positions g22_2) <-> In p (all_pos g22_2) /\ ~ In p (matched g22_2)) /\
  Z.of_nat (length (get_unmatched_positions g22_2)) = total_cards g22_2 - Z.of_nat (length (matched g22_2)).
Proof. split; [apply g22_2_reachable | apply unmatched_positions_spec, g22_2_reachable]. Defined.
